(** * NodeWarden rate limiting: a shallow embedding of [src/services/ratelimit.ts]

    The service keeps two tables in a D1 (SQLite) database:

    - [login_attempts_ip], keyed by client IP, with the number of failed
      logins and an optional lock expiry (epoch milliseconds);
    - [api_rate_limits], keyed by (identifier, window start), with the number
      of write requests counted in that fixed window.

    Every method of [RateLimitService] is embedded as a computation in a
    small state monad over the two tables.  Each SQL statement is one atomic
    transition of the store, [Date.now()] is an explicit argument (epoch
    milliseconds), and JavaScript numbers are integers of [Z]: the model is
    exact as long as the values stay below 2^53, which timestamps and the
    counters here do. *)

From Stdlib Require Import ZArith Lia Ascii String.
From stdpp Require Import base option list relations gmap strings.

Local Open Scope Z_scope.

(** ** Configuration (the [CONFIG] object) *)

Module CONFIG.
Definition LOGIN_MAX_ATTEMPTS : Z := 5.
Definition LOGIN_LOCKOUT_MINUTES : Z := 2.
Definition API_WRITE_REQUESTS_PER_MINUTE : Z := 120.
Definition API_WINDOW_SECONDS : Z := 60.
End CONFIG.

(** ** JavaScript strings

    Identifiers come out of [Headers.get], whose values are byte strings
    (code units up to 255), so a Rocq [string] with one [ascii] per code
    unit represents them.  [is_space] is the part of the ECMAScript
    WhiteSpace and LineTerminator classes that lies in that range: TAB, LF,
    VT, FF, CR, SPACE and NBSP. *)

Module Js.

Definition is_space (c : ascii) : bool :=
  let n := nat_of_ascii c in
  ((9 <=? n) && (n <=? 13) || (n =? 32) || (n =? 160))%nat.

Fixpoint trimStart (s : string) : string :=
  match s with
  | EmptyString => EmptyString
  | String c s' => if is_space c then trimStart s' else s
  end.

Fixpoint trimEnd (s : string) : string :=
  match s with
  | EmptyString => EmptyString
  | String c s' =>
      match trimEnd s' with
      | EmptyString => if is_space c then EmptyString else String c EmptyString
      | t => String c t
      end
  end.

(** [String.prototype.trim] *)
Definition trim (s : string) : string := trimEnd (trimStart s).

(** [String.prototype.split] with a one-character separator: the pieces
    between the separators, always at least one. *)
Fixpoint split (sep : ascii) (s : string) : list string :=
  match s with
  | EmptyString => [EmptyString]
  | String c s' =>
      if Ascii.eqb c sep then EmptyString :: split sep s'
      else match split sep s' with
           | piece :: pieces => String c piece :: pieces
           | [] => [String c EmptyString]
           end
  end.

(** [arr[0]] on the array [split] returns, which is never empty. *)
Definition first (pieces : list string) : string :=
  match pieces with
  | piece :: _ => piece
  | [] => EmptyString
  end.

(** Truthiness of a string: every string but the empty one. *)
Definition truthy (s : string) : bool :=
  match s with
  | EmptyString => false
  | String _ _ => true
  end.

(** [s || d] on strings. *)
Definition or_else (s d : string) : string := if truthy s then s else d.

(** [n || d] on numbers: [0] is falsy. *)
Definition num_or (n d : Z) : Z := if n =? 0 then d else n.

(** [Math.ceil(x / d)] for integers [x] and a positive integer [d]. *)
Definition ceil_div (x d : Z) : Z := - ((- x) / d).

(** The empty string and the strings of white space only. *)
Fixpoint blank (s : string) : bool :=
  match s with
  | EmptyString => true
  | String c s' => is_space c && blank s'
  end.

Definition lower_char (c : ascii) : ascii :=
  let n := nat_of_ascii c in
  if ((65 <=? n) && (n <=? 90))%nat then ascii_of_nat (n + 32) else c.

Fixpoint toLowerCase (s : string) : string :=
  match s with
  | EmptyString => EmptyString
  | String c s' => String (lower_char c) (toLowerCase s')
  end.

End Js.

(** ** Requests

    Only the headers of a [Request] matter here.  Header names are
    case-insensitive: the map is keyed by the lower-cased name, and
    [headers_get] is [Headers.get], which answers [null] ([None]) for a header
    that is not there. *)

Record Request := { headers : gmap string string }.

Definition headers_get (request : Request) (name : string) : option string :=
  headers request !! Js.toLowerCase name.

Definition getClientIdentifier (request : Request) : string :=
  match headers_get request "CF-Connecting-IP" with
  | Some (String _ _ as cfIp) => cfIp
  | _ =>
      match headers_get request "X-Forwarded-For" with
      | Some (String _ _ as forwardedFor) =>
          Js.trim (Js.first (Js.split "," forwardedFor))
      | _ => "unknown"%string
      end
  end.

(** ** The store

    [login_attempts_ip (ip TEXT PRIMARY KEY, attempts INTEGER NOT NULL,
    locked_until INTEGER, updated_at INTEGER NOT NULL)] and
    [api_rate_limits] with primary key [(identifier, window_start)] and a
    [count] column.  [loginIpTableReady] is the static flag of the class. *)

Record LoginRow := {
  attempts : Z;
  locked_until : option Z;
  updated_at : Z
}.

Record State := {
  login_attempts_ip : gmap string LoginRow;
  api_rate_limits : gmap (string * Z) Z;
  loginIpTableReady : bool
}.

Definition empty_state : State :=
  {| login_attempts_ip := ∅; api_rate_limits := ∅; loginIpTableReady := false |}.

Definition with_login (t : gmap string LoginRow) (st : State) : State :=
  {| login_attempts_ip := t;
     api_rate_limits := api_rate_limits st;
     loginIpTableReady := loginIpTableReady st |}.

Definition with_budget (t : gmap (string * Z) Z) (st : State) : State :=
  {| login_attempts_ip := login_attempts_ip st;
     api_rate_limits := t;
     loginIpTableReady := loginIpTableReady st |}.

(** ** A state monad for the awaited database calls *)

Definition M (A : Type) : Type := State → A * State.

#[global] Instance M_ret : MRet M := λ A a st, (a, st).

#[global] Instance M_bind : MBind M :=
  λ A B k m st, let '(a, st') := m st in k a st'.

(** ** The SQL statements, one atomic store transition each *)

Module Sql.

(** [CREATE TABLE IF NOT EXISTS login_attempts_ip (...)]: the rows of an
    existing table are left as they are. *)
Definition create_login_table : M unit := λ st, (tt, st).

(** [SELECT attempts, locked_until FROM login_attempts_ip WHERE ip = ?] *)
Definition select_login (key : string) : M (option LoginRow) :=
  λ st, (login_attempts_ip st !! key, st).

(** [DELETE FROM login_attempts_ip WHERE ip = ?] *)
Definition delete_login (key : string) : M unit :=
  λ st, (tt, with_login (delete key (login_attempts_ip st)) st).

(** [INSERT INTO login_attempts_ip(ip, attempts, locked_until, updated_at)
    VALUES(?, 1, NULL, ?) ON CONFLICT(ip) DO UPDATE SET
    attempts = attempts + 1, updated_at = excluded.updated_at] *)
Definition upsert_attempt (key : string) (now : Z) : M unit :=
  λ st,
    let row :=
      match login_attempts_ip st !! key with
      | None => {| attempts := 1; locked_until := None; updated_at := now |}
      | Some old =>
          {| attempts := attempts old + 1;
             locked_until := locked_until old;
             updated_at := now |}
      end in
    (tt, with_login (<[key := row]> (login_attempts_ip st)) st).

(** [UPDATE login_attempts_ip SET locked_until = ?, updated_at = ?
    WHERE ip = ?] *)
Definition update_lock (lockedUntil now : Z) (key : string) : M unit :=
  λ st,
    match login_attempts_ip st !! key with
    | None => (tt, st)
    | Some old =>
        let row := {| attempts := attempts old;
                      locked_until := Some lockedUntil;
                      updated_at := now |} in
        (tt, with_login (<[key := row]> (login_attempts_ip st)) st)
    end.

(** [INSERT INTO api_rate_limits(identifier, window_start, count)
    VALUES(?, ?, 1) ON CONFLICT(identifier, window_start) DO UPDATE SET
    count = count + 1 WHERE api_rate_limits.count < ? RETURNING count]:
    the returned row, or none when the [WHERE] held the update back. *)
Definition upsert_budget (identifier : string) (windowStart limit : Z)
  : M (option Z) :=
  λ st,
    match api_rate_limits st !! (identifier, windowStart) with
    | None =>
        (Some 1,
         with_budget (<[(identifier, windowStart) := 1]> (api_rate_limits st)) st)
    | Some count =>
        if count <? limit
        then (Some (count + 1),
              with_budget
                (<[(identifier, windowStart) := count + 1]> (api_rate_limits st)) st)
        else (None, st)
    end.

End Sql.

(** ** Results of the service methods *)

Module CheckResult.
Record t := {
  allowed : bool;
  remainingAttempts : Z;
  retryAfterSeconds : option Z
}.
End CheckResult.

Module RecordResult.
Record t := {
  locked : bool;
  retryAfterSeconds : option Z
}.
End RecordResult.

Module BudgetResult.
Record t := {
  allowed : bool;
  remaining : Z;
  retryAfterSeconds : option Z
}.
End BudgetResult.

(** ** [RateLimitService] *)

Definition ensureLoginIpTable : M unit :=
  λ st,
    if loginIpTableReady st then (tt, st)
    else
      let '(_, st') := Sql.create_login_table st in
      (tt, {| login_attempts_ip := login_attempts_ip st';
              api_rate_limits := api_rate_limits st';
              loginIpTableReady := true |}).

(** [ip.trim() || 'unknown'] *)
Definition login_key (ip : string) : string :=
  Js.or_else (Js.trim ip) "unknown".

(** [row.locked_until && p(row.locked_until)]: [NULL] and [0] are falsy. *)
Definition locked_and (row : LoginRow) (p : Z → bool) : bool :=
  match locked_until row with
  | Some lockedUntil => negb (lockedUntil =? 0) && p lockedUntil
  | None => false
  end.

Definition checkLoginAttempt (ip : string) (now : Z) : M CheckResult.t :=
  ensureLoginIpTable;;
  let key := login_key ip in
  row ← Sql.select_login key;
  match row with
  | None =>
      mret {| CheckResult.allowed := true;
              CheckResult.remainingAttempts := CONFIG.LOGIN_MAX_ATTEMPTS;
              CheckResult.retryAfterSeconds := None |}
  | Some row =>
      if locked_and row (λ lockedUntil, now <? lockedUntil) then
        mret {| CheckResult.allowed := false;
                CheckResult.remainingAttempts := 0;
                CheckResult.retryAfterSeconds :=
                  Some (Js.ceil_div (default 0 (locked_until row) - now) 1000) |}
      else if locked_and row (λ lockedUntil, lockedUntil <=? now) then
        Sql.delete_login key;;
        mret {| CheckResult.allowed := true;
                CheckResult.remainingAttempts := CONFIG.LOGIN_MAX_ATTEMPTS;
                CheckResult.retryAfterSeconds := None |}
      else
        let remainingAttempts :=
          Z.max 0 (CONFIG.LOGIN_MAX_ATTEMPTS - Js.num_or (attempts row) 0) in
        mret {| CheckResult.allowed := true;
                CheckResult.remainingAttempts := remainingAttempts;
                CheckResult.retryAfterSeconds := None |}
  end.

Definition recordFailedLogin (ip : string) (now : Z) : M RecordResult.t :=
  ensureLoginIpTable;;
  let key := login_key ip in
  Sql.upsert_attempt key now;;
  row ← Sql.select_login key;
  let attempts :=
    match row with
    | Some row => Js.num_or (attempts row) 1
    | None => 1
    end in
  if CONFIG.LOGIN_MAX_ATTEMPTS <=? attempts then
    let lockedUntil := now + CONFIG.LOGIN_LOCKOUT_MINUTES * 60 * 1000 in
    Sql.update_lock lockedUntil now key;;
    mret {| RecordResult.locked := true;
            RecordResult.retryAfterSeconds :=
              Some (CONFIG.LOGIN_LOCKOUT_MINUTES * 60) |}
  else
    mret {| RecordResult.locked := false;
            RecordResult.retryAfterSeconds := None |}.

Definition clearLoginAttempts (ip : string) : M unit :=
  ensureLoginIpTable;;
  let key := login_key ip in
  Sql.delete_login key.

(** [nowSec - (nowSec % CONFIG.API_WINDOW_SECONDS)]; the remainder of
    JavaScript takes the sign of the dividend, as [Z.rem] does. *)
Definition window_start (nowSec : Z) : Z :=
  nowSec - Z.rem nowSec CONFIG.API_WINDOW_SECONDS.

Definition consumeApiWriteBudget (identifier : string) (now : Z)
  : M BudgetResult.t :=
  let nowSec := now / 1000 in
  let windowStart := window_start nowSec in
  let windowEnd := windowStart + CONFIG.API_WINDOW_SECONDS in
  row ← Sql.upsert_budget identifier windowStart
           CONFIG.API_WRITE_REQUESTS_PER_MINUTE;
  match row with
  | None =>
      mret {| BudgetResult.allowed := false;
              BudgetResult.remaining := 0;
              BudgetResult.retryAfterSeconds := Some (windowEnd - nowSec) |}
  | Some count =>
      let remaining :=
        Z.max 0 (CONFIG.API_WRITE_REQUESTS_PER_MINUTE - count) in
      mret {| BudgetResult.allowed := true;
              BudgetResult.remaining := remaining;
              BudgetResult.retryAfterSeconds := None |}
  end.


(** ** Sequential and concurrent use *)

(** Calls awaited one after the other, results in call order. *)
Fixpoint run_all {A} (calls : list (M A)) : M (list A) :=
  match calls with
  | [] => mret []
  | call :: rest =>
      a ← call;
      others ← run_all rest;
      mret (a :: others)
  end.

(** A call of one of the four methods, with the clock value it reads. *)
Inductive call :=
| CheckLoginAttempt (ip : string) (now : Z)
| RecordFailedLogin (ip : string) (now : Z)
| ClearLoginAttempts (ip : string)
| ConsumeApiWriteBudget (identifier : string) (now : Z).

Definition exec (c : call) (st : State) : State :=
  match c with
  | CheckLoginAttempt ip now => (checkLoginAttempt ip now st).2
  | RecordFailedLogin ip now => (recordFailedLogin ip now st).2
  | ClearLoginAttempts ip => (clearLoginAttempts ip st).2
  | ConsumeApiWriteBudget identifier now =>
      (consumeApiWriteBudget identifier now st).2
  end.

(** [Date.now()] is a count of milliseconds since the epoch. *)
Definition clock_ok (c : call) : Prop :=
  match c with
  | CheckLoginAttempt _ now
  | RecordFailedLogin _ now
  | ConsumeApiWriteBudget _ now => 0 ≤ now
  | ClearLoginAttempts _ => True
  end.

(** The states the service can bring the empty tables to. *)
Inductive reachable : State → Prop :=
| reachable_empty : reachable empty_state
| reachable_exec c st : reachable st → clock_ok c → reachable (exec c st).

(** Concurrent [consumeApiWriteBudget] calls for one identifier.  A call
    touches the store in a single statement, so a call is either waiting to
    issue it (with the clock value it has read) or has its result; the
    store runs the statements of the waiting calls one at a time, in any
    order. *)
Inductive thread :=
| Pending (now : Z)
| Done (r : BudgetResult.t).

Inductive step (identifier : string)
  : State * list thread → State * list thread → Prop :=
| step_statement st threads i now r st' :
    threads !! i = Some (Pending now) →
    consumeApiWriteBudget identifier now st = (r, st') →
    step identifier (st, threads) (st', <[i := Done r]> threads).

Definition is_done (t : thread) : bool :=
  match t with Done _ => true | Pending _ => false end.

Definition is_accepted (t : thread) : bool :=
  match t with Done r => BudgetResult.allowed r | Pending _ => false end.

Definition is_rejected (t : thread) : bool :=
  match t with Done r => negb (BudgetResult.allowed r) | Pending _ => false end.

Definition tally (p : thread → bool) (threads : list thread) : Z :=
  Z.of_nat (length (List.filter p threads)).

(** The count stored for a window, [0] when the window has no row yet. *)
Definition count_at (st : State) (identifier : string) (windowStart : Z) : Z :=
  default 0 (api_rate_limits st !! (identifier, windowStart)).

Definition in_window (windowStart now : Z) : Prop :=
  window_start (now / 1000) = windowStart.

(** Every stored count is within the limit. *)
Definition budget_bounded (st : State) : Prop :=
  ∀ k count, api_rate_limits st !! k = Some count →
    count ≤ CONFIG.API_WRITE_REQUESTS_PER_MINUTE.

(** The state once [ensureLoginIpTable] has run: the rows are the same. *)
Definition ready (st : State) : State :=
  {| login_attempts_ip := login_attempts_ip st;
     api_rate_limits := api_rate_limits st;
     loginIpTableReady := true |}.

(** What [checkLoginAttempt] answers when nothing is held against the
    identifier. *)
Definition full_budget : CheckResult.t :=
  {| CheckResult.allowed := true;
     CheckResult.remainingAttempts := CONFIG.LOGIN_MAX_ATTEMPTS;
     CheckResult.retryAfterSeconds := None |}.

(** What [consumeApiWriteBudget] answers to an accepted call. *)
Definition accepted (remaining : Z) : BudgetResult.t :=
  {| BudgetResult.allowed := true;
     BudgetResult.remaining := remaining;
     BudgetResult.retryAfterSeconds := None |}.

Definition all_done (threads : list thread) : Prop :=
  Forall (λ t, is_done t = true) threads.

(** What holds at every point of a concurrent run that starts from count
    [c] in the window. *)
Definition run_invariant (identifier : string) (ws c : Z) (n : nat)
    (cfg : State * list thread) : Prop :=
  length cfg.2 = n
  ∧ (∀ i now, cfg.2 !! i = Some (Pending now) → in_window ws now)
  ∧ let d := tally is_done cfg.2 in
    tally is_accepted cfg.2 = Z.min d (120 - c)
    ∧ tally is_rejected cfg.2 = d - Z.min d (120 - c)
    ∧ count_at cfg.1 identifier ws = Z.min 120 (c + d).

(** The failed logins held against a key, [0] when it has no record. *)
Definition attempts_at (st : State) (key : string) : Z :=
  match login_attempts_ip st !! key with
  | Some row => attempts row
  | None => 0
  end.

(** The key has no record, or a record that was never locked. *)
Definition no_lock (st : State) (key : string) : Prop :=
  ∀ row, login_attempts_ip st !! key = Some row → locked_until row = None.

(** What [recordFailedLogin] answers below and at the threshold. *)
Definition not_locked : RecordResult.t :=
  {| RecordResult.locked := false; RecordResult.retryAfterSeconds := None |}.

Definition now_locked : RecordResult.t :=
  {| RecordResult.locked := true;
     RecordResult.retryAfterSeconds := Some (CONFIG.LOGIN_LOCKOUT_MINUTES * 60) |}.

(** Rows as sequential calls on an epoch clock leave them: at least one
    failure is counted, and a lock is a positive timestamp that was set at
    the threshold. *)
Definition login_rows_ok (st : State) : Prop :=
  ∀ key row, login_attempts_ip st !! key = Some row →
    1 ≤ attempts row
    ∧ ∀ lockedUntil, locked_until row = Some lockedUntil →
        0 < lockedUntil ∧ CONFIG.LOGIN_MAX_ATTEMPTS ≤ attempts row.

(** The precedence in the words of the specification, to compare with
    [getClientIdentifier]: the edge header when present and not empty, else
    the first entry of the forwarded-for header, trimmed, when that header is
    present, else the sentinel. *)
Definition resolveIdentifier_as_claimed (request : Request) : string :=
  match headers_get request "CF-Connecting-IP" with
  | Some (String _ _ as cfIp) => cfIp
  | _ =>
      match headers_get request "X-Forwarded-For" with
      | Some forwardedFor => Js.trim (Js.first (Js.split "," forwardedFor))
      | None => "unknown"%string
      end
  end.

(** A string that is empty or begins with a character that is no white
    space. *)
Definition starts_clean (s : string) : Prop :=
  match s with
  | EmptyString => True
  | String c _ => Js.is_space c = false
  end.


(** The row of [api_rate_limits] a call at [now] addresses. *)
Definition budget_key (identifier : string) (now : Z) : string * Z :=
  (identifier, window_start (now / 1000)).

(** Rows as sequential calls on an epoch clock leave them, in full: the
    lock is there exactly from the fifth failure on, and it ends two minutes
    after the last update of the row. *)
Definition row_shaped (row : LoginRow) : Prop :=
  1 ≤ attempts row
  ∧ 0 ≤ updated_at row
  ∧ locked_until row =
      (if 5 <=? attempts row then Some (updated_at row + 120000) else None).

Definition rows_shaped (st : State) : Prop :=
  ∀ key row, login_attempts_ip st !! key = Some row → row_shaped row.

(** A key as [login_key] makes them: trimmed and not empty. *)
Definition key_normal (key : string) : Prop :=
  key ≠ ""%string ∧ Js.trim key = key.

Definition keys_normal (st : State) : Prop :=
  ∀ key, is_Some (login_attempts_ip st !! key) → key_normal key.

(** Whether a character occurs in a string. *)
Fixpoint occurs (c : ascii) (s : string) : bool :=
  match s with
  | EmptyString => false
  | String c' s' => Ascii.eqb c' c || occurs c s'
  end.

(** Concurrent [recordFailedLogin] calls for one [ip].  A call awaits four
    things in turn: the schema statement, the upsert, the select, and, if the
    count it has read is at the threshold, the update that sets the lock.  A
    thread is a call between two of these; the store runs one statement of
    one thread at a time, in any order. *)
Inductive record_thread :=
| Called (now : Z)
| Ensured (now : Z)
| Upserted (now : Z)
| Selected (now : Z) (row : option LoginRow)
| Returned (r : RecordResult.t).

(** What a thread does next, if it has not returned. *)
Definition record_next (ip : string) (t : record_thread)
  : option (M record_thread) :=
  let key := login_key ip in
  match t with
  | Called now => Some (ensureLoginIpTable;; mret (Ensured now))
  | Ensured now => Some (Sql.upsert_attempt key now;; mret (Upserted now))
  | Upserted now => Some (row ← Sql.select_login key; mret (Selected now row))
  | Selected now row =>
      let attempts :=
        match row with
        | Some row => Js.num_or (attempts row) 1
        | None => 1
        end in
      Some (if CONFIG.LOGIN_MAX_ATTEMPTS <=? attempts then
              let lockedUntil := now + CONFIG.LOGIN_LOCKOUT_MINUTES * 60 * 1000 in
              Sql.update_lock lockedUntil now key;;
              mret (Returned
                      {| RecordResult.locked := true;
                         RecordResult.retryAfterSeconds :=
                           Some (CONFIG.LOGIN_LOCKOUT_MINUTES * 60) |})
            else
              mret (Returned
                      {| RecordResult.locked := false;
                         RecordResult.retryAfterSeconds := None |}))
  | Returned _ => None
  end.

Inductive record_step (ip : string)
  : State * list record_thread → State * list record_thread → Prop :=
| record_step_statement st threads i t m t' st' :
    threads !! i = Some t →
    record_next ip t = Some m →
    m st = (t', st') →
    record_step ip (st, threads) (st', <[i := t']> threads).

Definition has_returned (t : record_thread) : bool :=
  match t with Returned _ => true | _ => false end.

Definition answered_locked (t : record_thread) : bool :=
  match t with Returned r => RecordResult.locked r | _ => false end.

Definition past_upsert (t : record_thread) : bool :=
  match t with
  | Upserted _ | Selected _ _ | Returned _ => true
  | Called _ | Ensured _ => false
  end.

Definition about_to_select (t : record_thread) : bool :=
  match t with Upserted _ => true | _ => false end.

(** A thread that has read a count at the threshold and will set the lock. *)
Definition about_to_lock (t : record_thread) : bool :=
  match t with
  | Selected _ (Some row) => 5 <=? attempts row
  | _ => false
  end.

(** A thread that has read something no run can make it read: no row, or a
    count outside [1 .. bound]. *)
Definition read_amiss (bound : Z) (t : record_thread) : bool :=
  match t with
  | Selected _ (Some row) =>
      negb ((1 <=? attempts row) && (attempts row <=? bound))
  | Selected _ None => true
  | _ => false
  end.

Definition count_if {A} (p : A → bool) (l : list A) : Z :=
  Z.of_nat (length (List.filter p l)).

Definition is_locked (st : State) (key : string) : bool :=
  match login_attempts_ip st !! key with
  | Some row =>
      match locked_until row with Some _ => true | None => false end
  | None => false
  end.

(** What holds at every point of a run of [n] concurrent failures that
    starts from an unlocked count [c]. *)
Definition record_invariant (ip : string) (c : Z) (n : nat)
    (cfg : State * list record_thread) : Prop :=
  let key := login_key ip in
  let bound := c + Z.of_nat n in
  length cfg.2 = n
  ∧ attempts_at cfg.1 key = c + count_if past_upsert cfg.2
  ∧ count_if (read_amiss bound) cfg.2 = 0
  ∧ (is_locked cfg.1 key = true → 0 < count_if answered_locked cfg.2)
  ∧ (0 < count_if answered_locked cfg.2 → 5 ≤ bound)
  ∧ (5 ≤ attempts_at cfg.1 key → 0 < count_if past_upsert cfg.2 →
     is_locked cfg.1 key = true
     ∨ 0 < count_if about_to_select cfg.2
     ∨ 0 < count_if about_to_lock cfg.2).

Definition all_returned (threads : list record_thread) : Prop :=
  Forall (λ t, has_returned t = true) threads.

(** * Properties *)

(** ** The state monad and the schema flag *)

Lemma ensureLoginIpTable_eq st : ensureLoginIpTable st = (tt, ready st).
Proof. by destruct st as [l b []]. Qed.

Lemma bind_eq {A B} (m : M A) (k : A → M B) st :
  (m ≫= k) st = k (m st).1 (m st).2.
Proof. unfold mbind, M_bind. by destruct (m st). Qed.

Lemma run_all_cons {A} (m : M A) ms st :
  run_all (m :: ms) st =
    ((m st).1 :: (run_all ms (m st).2).1, (run_all ms (m st).2).2).
Proof.
  cbn [run_all]. rewrite !bind_eq. reflexivity.
Qed.

(** ** Write budget *)

Section budget.
Local Abbreviation limit := CONFIG.API_WRITE_REQUESTS_PER_MINUTE.

Lemma consume_eq identifier now st :
  let nowSec := now / 1000 in
  let k := (identifier, window_start nowSec) in
  consumeApiWriteBudget identifier now st =
    match api_rate_limits st !! k with
    | None =>
        ({| BudgetResult.allowed := true;
            BudgetResult.remaining := 119;
            BudgetResult.retryAfterSeconds := None |},
         with_budget (<[k := 1]> (api_rate_limits st)) st)
    | Some count =>
        if count <? limit then
          ({| BudgetResult.allowed := true;
              BudgetResult.remaining := Z.max 0 (limit - (count + 1));
              BudgetResult.retryAfterSeconds := None |},
           with_budget (<[k := count + 1]> (api_rate_limits st)) st)
        else
          ({| BudgetResult.allowed := false;
              BudgetResult.remaining := 0;
              BudgetResult.retryAfterSeconds :=
                Some (window_start nowSec + CONFIG.API_WINDOW_SECONDS - nowSec) |},
           st)
    end.
Proof.
  intros nowSec k. unfold consumeApiWriteBudget. rewrite bind_eq.
  unfold Sql.upsert_budget. fold nowSec. fold k.
  destruct (api_rate_limits st !! k) as [count|]; [|reflexivity].
  destruct (count <? limit); reflexivity.
Qed.

(** One statement seen from the row it addresses. *)
Lemma consume_count identifier now st ws :
  in_window ws now →
  let c := count_at st identifier ws in
  let '(r, st') := consumeApiWriteBudget identifier now st in
  if c <? limit then
    r = {| BudgetResult.allowed := true;
           BudgetResult.remaining := Z.max 0 (limit - (c + 1));
           BudgetResult.retryAfterSeconds := None |}
    ∧ api_rate_limits st' !! (identifier, ws) = Some (c + 1)
  else
    r = {| BudgetResult.allowed := false;
           BudgetResult.remaining := 0;
           BudgetResult.retryAfterSeconds :=
             Some (ws + CONFIG.API_WINDOW_SECONDS - now / 1000) |}
    ∧ st' = st.
Proof.
  intros Hw c. subst c. unfold count_at. rewrite consume_eq. cbv zeta.
  unfold in_window in Hw. rewrite Hw.
  destruct (api_rate_limits st !! (identifier, ws)) as [count|] eqn:E; cbn.
  - destruct (count <? limit) eqn:L; [|done].
    split; [done|]. cbn. by rewrite lookup_insert_eq.
  - split; [done|]. cbn. by rewrite lookup_insert_eq.
Qed.

Lemma consume_other identifier now st k :
  k ≠ (identifier, window_start (now / 1000)) →
  api_rate_limits (consumeApiWriteBudget identifier now st).2 !! k
    = api_rate_limits st !! k.
Proof.
  intros Hk. rewrite consume_eq. cbv zeta.
  destruct (api_rate_limits st !! _) as [count|]; cbn.
  - destruct (count <? limit); cbn; [|done]. by rewrite lookup_insert_ne.
  - by rewrite lookup_insert_ne.
Qed.

Lemma consume_login identifier now st :
  login_attempts_ip (consumeApiWriteBudget identifier now st).2
    = login_attempts_ip st.
Proof.
  rewrite consume_eq. cbv zeta.
  destruct (api_rate_limits st !! _) as [count|]; cbn; [|done].
  by destruct (count <? limit).
Qed.

Lemma consume_bounded identifier now st :
  budget_bounded st →
  budget_bounded (consumeApiWriteBudget identifier now st).2.
Proof.
  intros Hb k count.
  destruct (decide (k = (identifier, window_start (now / 1000)))) as [->|Hk].
  - pose proof (consume_count identifier now st _ eq_refl) as H.
    cbv zeta in H. destruct (consumeApiWriteBudget identifier now st) as [r st'].
    cbn. unfold count_at in H.
    destruct (api_rate_limits st !! _) as [c|] eqn:E; cbn in H.
    + destruct (c <? limit) eqn:L.
      * destruct H as [_ ->]. intros [= <-]. unfold limit in *. lia.
      * destruct H as [_ ->]. rewrite E. intros [= <-]. by eapply Hb.
    + destruct H as [_ ->]. intros [= <-]. unfold limit. lia.
  - rewrite consume_other by done. apply Hb.
Qed.

End budget.

(** ** Login guard: the methods as equations on the table *)

Lemma checkLoginAttempt_eq ip now st :
  let key := login_key ip in
  checkLoginAttempt ip now st =
    match login_attempts_ip st !! key with
    | None => (full_budget, ready st)
    | Some row =>
        if locked_and row (λ lockedUntil, now <? lockedUntil) then
          ({| CheckResult.allowed := false;
              CheckResult.remainingAttempts := 0;
              CheckResult.retryAfterSeconds :=
                Some (Js.ceil_div (default 0 (locked_until row) - now) 1000) |},
           ready st)
        else if locked_and row (λ lockedUntil, lockedUntil <=? now) then
          (full_budget,
           with_login (delete key (login_attempts_ip st)) (ready st))
        else
          ({| CheckResult.allowed := true;
              CheckResult.remainingAttempts :=
                Z.max 0 (5 - Js.num_or (attempts row) 0);
              CheckResult.retryAfterSeconds := None |},
           ready st)
    end.
Proof.
  intros key. unfold checkLoginAttempt. fold key.
  rewrite !bind_eq, ensureLoginIpTable_eq. cbn.
  destruct (login_attempts_ip st !! key) as [row|]; [|reflexivity].
  destruct (locked_and row _); [reflexivity|].
  destruct (locked_and row _); reflexivity.
Qed.

Lemma num_or_threshold a : (5 <=? Js.num_or a 1) = (5 <=? a).
Proof. unfold Js.num_or. destruct (a =? 0) eqn:E; [|done]. lia. Qed.

Lemma recordFailedLogin_eq ip now st :
  let key := login_key ip in
  let row :=
    match login_attempts_ip st !! key with
    | None => {| attempts := 1; locked_until := None; updated_at := now |}
    | Some old =>
        {| attempts := attempts old + 1;
           locked_until := locked_until old;
           updated_at := now |}
    end in
  recordFailedLogin ip now st =
    if 5 <=? attempts row then
      ({| RecordResult.locked := true;
          RecordResult.retryAfterSeconds := Some 120 |},
       with_login
         (<[key := {| attempts := attempts row;
                      locked_until := Some (now + 120000);
                      updated_at := now |}]> (login_attempts_ip st))
         (ready st))
    else
      ({| RecordResult.locked := false;
          RecordResult.retryAfterSeconds := None |},
       with_login (<[key := row]> (login_attempts_ip st)) (ready st)).
Proof.
  intros key row. unfold recordFailedLogin. fold key.
  rewrite !bind_eq, ensureLoginIpTable_eq.
  unfold Sql.upsert_attempt, Sql.select_login. cbn -[Z.leb Z.add Z.mul].
  fold row. rewrite lookup_insert_eq, num_or_threshold.
  change CONFIG.LOGIN_MAX_ATTEMPTS with 5.
  destruct (5 <=? attempts row); [|reflexivity].
  rewrite bind_eq. unfold Sql.update_lock. cbn -[Z.leb Z.add Z.mul].
  rewrite lookup_insert_eq. cbn -[Z.leb Z.add Z.mul].
  rewrite insert_insert_eq. reflexivity.
Qed.

Lemma clearLoginAttempts_eq ip st :
  clearLoginAttempts ip st =
    (tt, with_login (delete (login_key ip) (login_attempts_ip st)) (ready st)).
Proof.
  unfold clearLoginAttempts. rewrite bind_eq, ensureLoginIpTable_eq.
  reflexivity.
Qed.


(** ** The tables a method leaves alone *)

Lemma login_calls_keep_budget c st :
  (∀ identifier now, c ≠ ConsumeApiWriteBudget identifier now) →
  api_rate_limits (exec c st) = api_rate_limits st.
Proof.
  intros Hc. destruct c as [ip now|ip now|ip|identifier now]; cbn.
  - rewrite checkLoginAttempt_eq. cbv zeta.
    destruct (login_attempts_ip st !! _) as [row|]; [|done].
    by repeat (destruct (locked_and row _)).
  - rewrite recordFailedLogin_eq. cbv zeta. by destruct (5 <=? _).
  - by rewrite clearLoginAttempts_eq.
  - by destruct (Hc identifier now).
Qed.

Lemma reachable_budget_bounded st : reachable st → budget_bounded st.
Proof.
  induction 1 as [|c st Hst IH Hclock].
  - intros k count. cbn. by rewrite lookup_empty.
  - destruct c as [ip now|ip now|ip|identifier now];
      try (unfold budget_bounded; rewrite login_calls_keep_budget by done;
           exact IH).
    by apply consume_bounded.
Qed.

(** ** Sequential calls in one window *)

Lemma consume_run identifier ws nows : ∀ st,
  Forall (in_window ws) nows →
  let c := count_at st identifier ws in
  0 ≤ c →
  c + Z.of_nat (length nows) ≤ 120 →
  let '(rs, st') := run_all (consumeApiWriteBudget identifier <$> nows) st in
  rs = (λ j, accepted (120 - j)) <$> seqZ (c + 1) (Z.of_nat (length nows))
  ∧ count_at st' identifier ws = c + Z.of_nat (length nows).
Proof.
  induction nows as [|now nows IH]; intros st Hw c Hc Hlen.
  - cbn. split; [done|]. subst c. lia.
  - apply Forall_cons in Hw as [Hnow Hw].
    rewrite fmap_cons, run_all_cons.
    pose proof (consume_count identifier now st ws Hnow) as H1.
    cbv zeta in H1. fold c in H1.
    destruct (consumeApiWriteBudget identifier now st) as [r st1].
    cbn [fst snd]. cbn [length] in Hlen.
    destruct (Z.ltb_spec c CONFIG.API_WRITE_REQUESTS_PER_MINUTE) as [_|Hge];
      [|unfold CONFIG.API_WRITE_REQUESTS_PER_MINUTE in Hge; lia].
    destruct H1 as [-> Hrow].
    assert (Hc1 : count_at st1 identifier ws = c + 1)
      by (unfold count_at; by rewrite Hrow).
    specialize (IH st1 Hw). cbv zeta in IH. rewrite Hc1 in IH.
    destruct (run_all _ st1) as [rs st'].
    destruct IH as [-> Hfinal]; [lia..|]. cbn [fst snd].
    split; [|cbn [length]; lia].
    rewrite (seqZ_cons (c + 1)) by (cbn [length]; lia).
    rewrite fmap_cons. f_equal.
    + unfold accepted, CONFIG.API_WRITE_REQUESTS_PER_MINUTE. f_equal. lia.
    + f_equal. f_equal; cbn [length]; lia.
Qed.

(** ** Concurrent calls in one window *)

Lemma tally_insert p threads : ∀ i t t',
  threads !! i = Some t →
  tally p (<[i := t']> threads)
    = tally p threads - Z.b2z (p t) + Z.b2z (p t').
Proof.
  unfold tally.
  induction threads as [|t0 threads IH]; intros i t t' Hi; [done|].
  destruct i as [|i]; cbn in Hi.
  - injection Hi as ->. clear IH. cbn.
    destruct (p t), (p t'); cbn [length Z.b2z]; lia.
  - specialize (IH i t t' Hi).
    change (<[S i := t']> (t0 :: threads)) with (t0 :: <[i := t']> threads).
    cbn [List.filter]. destruct (p t0); cbn [length]; lia.
Qed.

Lemma tally_pending p nows :
  (∀ now, p (Pending now) = false) → tally p (Pending <$> nows) = 0.
Proof.
  intros Hp. unfold tally. induction nows as [|now nows IH]; [done|].
  cbn. by rewrite Hp.
Qed.

Lemma tally_all_done threads :
  all_done threads → tally is_done threads = Z.of_nat (length threads).
Proof.
  unfold tally. induction 1 as [|t threads Ht _ IH]; [done|].
  cbn. rewrite Ht. cbn [length]. lia.
Qed.

Lemma step_cons identifier t st threads st' threads' :
  step identifier (st, threads) (st', threads') →
  step identifier (st, t :: threads) (st', t :: threads').
Proof.
  inversion 1 as [? ? i now r ? Hi Hrun]; subst.
  by apply (step_statement identifier st (t :: threads) (S i) now r st').
Qed.

Lemma steps_cons identifier t cfg cfg' :
  rtc (step identifier) cfg cfg' →
  rtc (step identifier) (cfg.1, t :: cfg.2) (cfg'.1, t :: cfg'.2).
Proof.
  induction 1 as [cfg|cfg cfg1 cfg' Hstep _ IH]; [done|].
  eapply rtc_l; [|exact IH].
  destruct cfg, cfg1. by apply step_cons.
Qed.

(** Every batch of waiting calls can run to the end. *)
Lemma concurrent_run_exists identifier nows : ∀ st,
  ∃ cfg, rtc (step identifier) (st, Pending <$> nows) cfg ∧ all_done cfg.2.
Proof.
  induction nows as [|now nows IH]; intros st.
  - exists (st, []). split; [done|]. constructor.
  - destruct (consumeApiWriteBudget identifier now st) as [r st1] eqn:E.
    destruct (IH st1) as [[st' threads'] [Hrun Hdone]].
    exists (st', Done r :: threads'). split.
    + eapply rtc_l.
      * by apply (step_statement identifier st (Pending <$> now :: nows) 0%nat now r st1).
      * apply (steps_cons identifier (Done r) _ _ Hrun).
    + by constructor.
Qed.

Lemma run_invariant_step identifier ws c n cfg cfg' :
  0 ≤ c ≤ 120 →
  run_invariant identifier ws c n cfg →
  step identifier cfg cfg' →
  run_invariant identifier ws c n cfg'.
Proof.
  intros Hc (Hlen & Hwin & Hacc & Hrej & Hcount) Hstep.
  destruct Hstep as [st threads i now r st' Hi Hrun]. cbn [fst snd] in *.
  pose proof (consume_count identifier now st ws (Hwin i now Hi)) as H.
  cbv zeta in H. rewrite Hrun, Hcount in H.
  assert (0 ≤ tally is_done threads) by (unfold tally; lia).
  unfold run_invariant. cbn [fst snd].
  rewrite !(tally_insert _ threads i (Pending now) (Done r) Hi).
  rewrite length_insert. split; [done|]. split.
  { intros j now' Hj. destruct (decide (i = j)) as [->|Hne].
    - rewrite list_lookup_insert_eq in Hj by (by eapply lookup_lt_Some).
      discriminate.
    - rewrite list_lookup_insert_ne in Hj by done. by eapply Hwin. }
  cbn [is_done is_accepted is_rejected Z.b2z].
  unfold CONFIG.API_WRITE_REQUESTS_PER_MINUTE in H.
  destruct (Z.ltb_spec (Z.min 120 (c + tally is_done threads)) 120) as [Hlt|Hge].
  - destruct H as [-> Hrow]. cbn [BudgetResult.allowed negb Z.b2z].
    unfold count_at. rewrite Hrow. cbn. lia.
  - destruct H as [-> ->]. cbn [BudgetResult.allowed negb Z.b2z]. lia.
Qed.

Lemma run_invariant_start identifier ws c st nows :
  0 ≤ c ≤ 120 →
  count_at st identifier ws = c →
  Forall (in_window ws) nows →
  run_invariant identifier ws c (length nows) (st, Pending <$> nows).
Proof.
  intros Hc Hcount Hw. unfold run_invariant. cbn [fst snd].
  rewrite !tally_pending by done. rewrite length_fmap.
  split; [done|]. split; [|lia].
  intros i now Hi. apply list_lookup_fmap_Some in Hi as (now' & [= <-] & Hi).
  rewrite Forall_forall in Hw. apply Hw. by eapply list_elem_of_lookup_2.
Qed.

Lemma run_invariant_steps identifier ws c n cfg cfg' :
  0 ≤ c ≤ 120 →
  run_invariant identifier ws c n cfg →
  rtc (step identifier) cfg cfg' →
  run_invariant identifier ws c n cfg'.
Proof.
  intros Hc Hinv Hrun. induction Hrun as [cfg|cfg cfg1 cfg' Hstep _ IH]; [done|].
  apply IH. by eapply run_invariant_step.
Qed.

(** ** Claims on the write budget *)

(** C1. In every reachable state each stored count of [api_rate_limits] is at
    most the limit of 120; a [consumeApiWriteBudget] call on a table within
    the limit leaves it within the limit; and the row the call addresses is
    incremented exactly when its count is strictly below the limit (a
    missing row is inserted at 1). *)
Theorem write_budget_count_bounded st identifier now :
  (reachable st → budget_bounded st)
  ∧ (budget_bounded st →
     budget_bounded (consumeApiWriteBudget identifier now st).2)
  ∧ (let k := (identifier, window_start (now / 1000)) in
     api_rate_limits (consumeApiWriteBudget identifier now st).2 !! k =
       match api_rate_limits st !! k with
       | None => Some 1
       | Some count => if count <? 120 then Some (count + 1) else Some count
       end).
Proof.
  split; [apply reachable_budget_bounded|]. split; [apply consume_bounded|].
  intros k. rewrite consume_eq. cbv zeta. fold k.
  destruct (api_rate_limits st !! k) as [count|] eqn:E; cbn.
  - change CONFIG.API_WRITE_REQUESTS_PER_MINUTE with 120.
    destruct (count <? 120); cbn; [by rewrite lookup_insert_eq|done].
  - by rewrite lookup_insert_eq.
Qed.

Lemma write_budget_count_bounded_witness :
  let st := exec (ConsumeApiWriteBudget "203.0.113.7" 61500) empty_state in
  reachable st
  ∧ budget_bounded st
  ∧ budget_bounded (consumeApiWriteBudget "203.0.113.7" 62000 st).2.
Proof.
  intros st.
  assert (Hst : reachable st).
  { apply reachable_exec; [apply reachable_empty|]. cbn. lia. }
  destruct (write_budget_count_bounded st "203.0.113.7" 62000) as (H1 & H2 & _).
  exact (conj Hst (conj (H1 Hst) (H2 (H1 Hst)))).
Defined.

(** C4. In a window where the identifier has no row yet, 120 sequential
    calls are all accepted, call [j] (counted from 1) leaving
    [remaining = 120 - j], so 119 down to 0; call 121 is rejected with
    [remaining = 0] and [retryAfterSeconds = windowStart + 60 - nowSec], a
    whole number of seconds between 1 and 60 on an epoch clock. *)
Theorem fresh_window_accepts_exactly_limit st identifier ws nows now121 :
  api_rate_limits st !! (identifier, ws) = None →
  length nows = 120%nat →
  Forall (in_window ws) nows →
  in_window ws now121 →
  let '(rs, st') := run_all (consumeApiWriteBudget identifier <$> nows) st in
  rs = (λ j, accepted (120 - j)) <$> seqZ 1 120
  ∧ (consumeApiWriteBudget identifier now121 st').1 =
      {| BudgetResult.allowed := false;
         BudgetResult.remaining := 0;
         BudgetResult.retryAfterSeconds := Some (ws + 60 - now121 / 1000) |}
  ∧ (0 ≤ now121 → 1 ≤ ws + 60 - now121 / 1000 ≤ 60).
Proof.
  intros Hrow Hlen Hw Hw121.
  pose proof (consume_run identifier ws nows st Hw) as H.
  assert (Hzero : count_at st identifier ws = 0)
    by (unfold count_at; by rewrite Hrow).
  cbv zeta in H. rewrite Hzero, Hlen in H.
  destruct (run_all _ st) as [rs st'].
  destruct H as [-> Hcount]; [lia..|].
  split; [done|]. split.
  - pose proof (consume_count identifier now121 st' ws Hw121) as H.
    cbv zeta in H. rewrite Hcount in H.
    destruct (consumeApiWriteBudget identifier now121 st') as [r st2].
    cbn in H. by destruct H as [-> _].
  - intros Hnow. unfold in_window, window_start in Hw121.
    change CONFIG.API_WINDOW_SECONDS with 60 in Hw121.
    assert (0 ≤ now121 / 1000) by (apply Z.div_pos; lia).
    pose proof (Z.rem_bound_pos (now121 / 1000) 60). lia.
Qed.

Lemma fresh_window_accepts_exactly_limit_witness :
  let '(rs, st') :=
    run_all (consumeApiWriteBudget "203.0.113.7" <$> replicate 120 61500)
      empty_state in
  rs = (λ j, accepted (120 - j)) <$> seqZ 1 120
  ∧ (consumeApiWriteBudget "203.0.113.7" 95999 st').1 =
      {| BudgetResult.allowed := false;
         BudgetResult.remaining := 0;
         BudgetResult.retryAfterSeconds := Some (60 + 60 - 95999 / 1000) |}
  ∧ (0 ≤ 95999 → 1 ≤ 60 + 60 - 95999 / 1000 ≤ 60).
Proof.
  apply (fresh_window_accepts_exactly_limit
           empty_state "203.0.113.7" 60 (replicate 120 61500) 95999).
  - reflexivity.
  - reflexivity.
  - apply Forall_replicate. reflexivity.
  - reflexivity.
Defined.

(** C2. [M] concurrent calls for one identifier in one window, started at
    stored count [c]: the calls can all complete, and however the store
    orders their statements, exactly [min M (120 - c)] are accepted, the
    other [M - min M (120 - c)] are rejected, and the stored count ends at
    [min 120 (c + M)]. *)
Theorem concurrent_calls_counted_exactly identifier ws nows st c :
  0 ≤ c ≤ 120 →
  count_at st identifier ws = c →
  Forall (in_window ws) nows →
  let m := Z.of_nat (length nows) in
  (∃ cfg, rtc (step identifier) (st, Pending <$> nows) cfg ∧ all_done cfg.2)
  ∧ ∀ st' threads',
      rtc (step identifier) (st, Pending <$> nows) (st', threads') →
      all_done threads' →
      tally is_accepted threads' = Z.min m (120 - c)
      ∧ tally is_rejected threads' = m - Z.min m (120 - c)
      ∧ count_at st' identifier ws = Z.min 120 (c + m).
Proof.
  intros Hc Hcount Hw m. split; [apply concurrent_run_exists|].
  intros st' threads' Hrun Hdone.
  pose proof (run_invariant_start identifier ws c st nows Hc Hcount Hw) as Hinv.
  pose proof (run_invariant_steps _ _ _ _ _ _ Hc Hinv Hrun)
    as (Hlen & _ & Hacc & Hrej & Hfinal).
  cbn [fst snd] in *.
  rewrite (tally_all_done _ Hdone), Hlen in Hacc, Hrej, Hfinal.
  by fold m in Hacc, Hrej, Hfinal.
Qed.

Lemma concurrent_calls_counted_exactly_witness :
  let st := with_budget {[ ("203.0.113.7"%string, 60) := 119 ]} empty_state in
  let nows := [61000; 61500; 62000] in
  let m := Z.of_nat (length nows) in
  (∃ cfg, rtc (step "203.0.113.7") (st, Pending <$> nows) cfg ∧ all_done cfg.2)
  ∧ ∀ st' threads',
      rtc (step "203.0.113.7") (st, Pending <$> nows) (st', threads') →
      all_done threads' →
      tally is_accepted threads' = Z.min m (120 - 119)
      ∧ tally is_rejected threads' = m - Z.min m (120 - 119)
      ∧ count_at st' "203.0.113.7" 60 = Z.min 120 (119 + m).
Proof.
  intros st nows.
  apply (concurrent_calls_counted_exactly "203.0.113.7" 60 nows st 119).
  - lia.
  - reflexivity.
  - repeat constructor.
Defined.

(** ** Login guard: one call seen from the row of its key *)

Lemma record_below ip now st :
  let key := login_key ip in
  no_lock st key →
  attempts_at st key + 1 < 5 →
  let '(r, st') := recordFailedLogin ip now st in
  r = not_locked
  ∧ no_lock st' key
  ∧ attempts_at st' key = attempts_at st key + 1
  ∧ is_Some (login_attempts_ip st' !! key).
Proof.
  intros key Hno Hlt. rewrite recordFailedLogin_eq. cbv zeta. fold key.
  unfold attempts_at, no_lock in *.
  destruct (login_attempts_ip st !! key) as [old|] eqn:E; cbn [attempts].
  - destruct (Z.leb_spec 5 (attempts old + 1)) as [?|_]; [lia|].
    cbn. rewrite lookup_insert_eq. repeat split; [|by eexists].
    intros row [= <-]. cbn. by apply Hno.
  - cbn. rewrite lookup_insert_eq. repeat split; [|by eexists].
    by intros row [= <-].
Qed.

Lemma record_reaching ip now st :
  let key := login_key ip in
  5 ≤ attempts_at st key + 1 →
  let '(r, st') := recordFailedLogin ip now st in
  r = now_locked
  ∧ login_attempts_ip st' !! key =
      Some {| attempts := attempts_at st key + 1;
              locked_until := Some (now + 120000);
              updated_at := now |}.
Proof.
  intros key Hge. rewrite recordFailedLogin_eq. cbv zeta. fold key.
  unfold attempts_at in *.
  destruct (login_attempts_ip st !! key) as [old|] eqn:E; cbn [attempts].
  - destruct (Z.leb_spec 5 (attempts old + 1)) as [_|?]; [|lia].
    cbn. by rewrite lookup_insert_eq.
  - lia.
Qed.

Lemma check_open ip now st :
  let key := login_key ip in
  no_lock st key →
  0 ≤ attempts_at st key ≤ 5 →
  (checkLoginAttempt ip now st).1 =
    {| CheckResult.allowed := true;
       CheckResult.remainingAttempts := 5 - attempts_at st key;
       CheckResult.retryAfterSeconds := None |}.
Proof.
  intros key Hno Hk. rewrite checkLoginAttempt_eq. cbv zeta. fold key.
  unfold attempts_at, no_lock in *.
  destruct (login_attempts_ip st !! key) as [row|] eqn:E; [|done].
  unfold locked_and. rewrite (Hno row eq_refl). cbn.
  f_equal. unfold Js.num_or. destruct (attempts row =? 0) eqn:Z0; lia.
Qed.

Lemma record_run ip nows : ∀ st,
  let key := login_key ip in
  no_lock st key →
  attempts_at st key + Z.of_nat (length nows) < 5 →
  let '(rs, st') := run_all (recordFailedLogin ip <$> nows) st in
  rs = replicate (length nows) not_locked
  ∧ no_lock st' key
  ∧ attempts_at st' key = attempts_at st key + Z.of_nat (length nows).
Proof.
  induction nows as [|now nows IH]; intros st key Hno Hlt.
  - cbn. repeat split; [done|lia].
  - rewrite fmap_cons, run_all_cons. cbn [length] in Hlt.
    pose proof (record_below ip now st) as H1. cbv zeta in H1. fold key in H1.
    destruct (recordFailedLogin ip now st) as [r st1]. cbn [fst snd].
    destruct H1 as (-> & Hno1 & Hat1 & _); [done|lia|].
    specialize (IH st1). cbv zeta in IH. fold key in IH.
    destruct (run_all _ st1) as [rs st']. cbn [fst snd].
    destruct IH as (-> & Hno' & Hat'); [done|lia|].
    repeat split; [done|cbn [length]; lia].
Qed.

(** ** Rows of reachable states *)

Lemma exec_login_rows_ok c st :
  clock_ok c → login_rows_ok st → login_rows_ok (exec c st).
Proof.
  intros Hclock Hok key row.
  destruct c as [ip now|ip now|ip|identifier now]; cbn [exec clock_ok] in *.
  - rewrite checkLoginAttempt_eq. cbv zeta.
    destruct (login_attempts_ip st !! login_key ip) as [r|]; [|apply Hok].
    destruct (locked_and r _); [apply Hok|].
    destruct (locked_and r _); [|apply Hok].
    cbn. intros Hrow. apply lookup_delete_Some in Hrow as [_ Hrow]. exact (Hok _ _ Hrow).
  - rewrite recordFailedLogin_eq. cbv zeta.
    set (new := match login_attempts_ip st !! login_key ip with
                | Some old => _ | None => _ end).
    assert (Hnew : 1 ≤ attempts new
                   ∧ ∀ lu, locked_until new = Some lu → 0 < lu ∧ 5 ≤ attempts new).
    { subst new. destruct (login_attempts_ip st !! login_key ip) as [old|] eqn:E.
      - destruct (Hok _ _ E) as [H1 H2]. cbn. split; [lia|].
        intros lu Hlu. destruct (H2 lu Hlu) as [? H5].
        unfold CONFIG.LOGIN_MAX_ATTEMPTS in H5. lia.
      - cbn. split; [lia|done]. }
    destruct Hnew as [Hnew1 Hnew2].
    destruct (Z.leb_spec 5 (attempts new)) as [H5|Hlt]; cbn;
      (destruct (decide (key = login_key ip)) as [->|Hne];
       [rewrite lookup_insert_eq; intros [= <-]
       |rewrite lookup_insert_ne by done; apply Hok]).
    + cbn. split; [done|]. intros lu [= <-].
      unfold CONFIG.LOGIN_MAX_ATTEMPTS. lia.
    + split; [done|]. intros lu Hlu. destruct (Hnew2 lu Hlu). lia.
  - rewrite clearLoginAttempts_eq. cbn.
    intros Hrow. apply lookup_delete_Some in Hrow as [_ Hrow]. exact (Hok _ _ Hrow).
  - rewrite consume_login. apply Hok.
Qed.

Lemma reachable_login_rows_ok st : reachable st → login_rows_ok st.
Proof.
  induction 1 as [|c st _ IH Hclock].
  - intros key row. cbn. by rewrite lookup_empty.
  - by apply exec_login_rows_ok.
Qed.

(** [Js.ceil_div x 1000] is the least integer not below [x / 1000]. *)
Lemma ceil_div_spec x :
  1000 * (Js.ceil_div x 1000 - 1) < x ≤ 1000 * Js.ceil_div x 1000.
Proof.
  unfold Js.ceil_div.
  pose proof (Z.div_mod (- x) 1000 ltac:(lia)).
  pose proof (Z.mod_pos_bound (- x) 1000 ltac:(lia)). lia.
Qed.

(** ** Claims on the login guard *)

(** C5. From no record, four sequential failures each answer
    [{locked: false}]; the fifth answers [{locked: true,
    retryAfterSeconds: 120}] and stores [locked_until = now + 2 minutes];
    and after the first [k < 5] of these failures [checkLoginAttempt] answers
    [allowed = true] with [remainingAttempts = 5 - k]. *)
Theorem five_failures_lock st ip nows now5 :
  login_attempts_ip st !! login_key ip = None →
  length nows = 4%nat →
  let '(rs, st4) := run_all (recordFailedLogin ip <$> nows) st in
  let '(r5, st5) := recordFailedLogin ip now5 st4 in
  rs = replicate 4 not_locked
  ∧ r5 = {| RecordResult.locked := true;
            RecordResult.retryAfterSeconds := Some 120 |}
  ∧ login_attempts_ip st5 !! login_key ip =
      Some {| attempts := 5;
              locked_until := Some (now5 + 2 * 60 * 1000);
              updated_at := now5 |}
  ∧ ∀ (k : nat) now, (k < 5)%nat →
      (checkLoginAttempt ip now
         (run_all (recordFailedLogin ip <$> take k nows) st).2).1 =
        {| CheckResult.allowed := true;
           CheckResult.remainingAttempts := 5 - Z.of_nat k;
           CheckResult.retryAfterSeconds := None |}.
Proof.
  intros Hnone Hlen.
  assert (Hno : no_lock st (login_key ip)) by (intros row; by rewrite Hnone).
  assert (Hat : attempts_at st (login_key ip) = 0)
    by (unfold attempts_at; by rewrite Hnone).
  pose proof (record_run ip nows st) as H4. cbv zeta in H4.
  rewrite Hat, Hlen in H4.
  destruct (run_all (recordFailedLogin ip <$> nows) st) as [rs st4].
  destruct H4 as (-> & Hno4 & Hat4); [done|lia|].
  pose proof (record_reaching ip now5 st4) as H5. cbv zeta in H5.
  rewrite Hat4 in H5.
  destruct (recordFailedLogin ip now5 st4) as [r5 st5].
  destruct H5 as [-> Hrow5]; [lia|].
  split; [done|]. split; [done|]. split; [exact Hrow5|].
  intros k now Hk.
  pose proof (record_run ip (take k nows) st) as Hk'. cbv zeta in Hk'.
  rewrite Hat, length_take, Hlen in Hk'.
  destruct (run_all (recordFailedLogin ip <$> take k nows) st) as [rsk stk].
  destruct Hk' as (_ & Hnok & Hatk); [done|lia|]. cbn [snd].
  rewrite check_open by (done || lia). rewrite Hatk.
  do 2 f_equal. lia.
Qed.

Lemma five_failures_lock_witness :
  let '(rs, st4) :=
    run_all (recordFailedLogin "1.2.3.4" <$> [1000; 2000; 3000; 4000])
      empty_state in
  let '(r5, st5) := recordFailedLogin "1.2.3.4" 5000 st4 in
  rs = replicate 4 not_locked
  ∧ r5 = {| RecordResult.locked := true;
            RecordResult.retryAfterSeconds := Some 120 |}
  ∧ login_attempts_ip st5 !! login_key "1.2.3.4" =
      Some {| attempts := 5;
              locked_until := Some (5000 + 2 * 60 * 1000);
              updated_at := 5000 |}
  ∧ ∀ (k : nat) now, (k < 5)%nat →
      (checkLoginAttempt "1.2.3.4" now
         (run_all (recordFailedLogin "1.2.3.4"
                     <$> take k [1000; 2000; 3000; 4000]) empty_state).2).1 =
        {| CheckResult.allowed := true;
           CheckResult.remainingAttempts := 5 - Z.of_nat k;
           CheckResult.retryAfterSeconds := None |}.
Proof.
  apply (five_failures_lock empty_state "1.2.3.4" [1000; 2000; 3000; 4000] 5000).
  - reflexivity.
  - reflexivity.
Defined.

Lemma check_expired ip now st row lockedUntil :
  login_attempts_ip st !! login_key ip = Some row →
  locked_until row = Some lockedUntil →
  lockedUntil ≠ 0 →
  lockedUntil ≤ now →
  checkLoginAttempt ip now st =
    (full_budget,
     with_login (delete (login_key ip) (login_attempts_ip st)) (ready st)).
Proof.
  intros Hrow Hlu Hnz Hle. rewrite checkLoginAttempt_eq. cbv zeta.
  rewrite Hrow. unfold locked_and. rewrite Hlu.
  destruct (Z.eqb_spec lockedUntil 0) as [?|_]; [done|].
  destruct (Z.ltb_spec now lockedUntil) as [?|_]; [lia|].
  destruct (Z.leb_spec lockedUntil now) as [_|?]; [|lia].
  reflexivity.
Qed.

Lemma check_locked ip now st row lockedUntil :
  login_attempts_ip st !! login_key ip = Some row →
  locked_until row = Some lockedUntil →
  lockedUntil ≠ 0 →
  now < lockedUntil →
  checkLoginAttempt ip now st =
    ({| CheckResult.allowed := false;
        CheckResult.remainingAttempts := 0;
        CheckResult.retryAfterSeconds :=
          Some (Js.ceil_div (lockedUntil - now) 1000) |},
     ready st).
Proof.
  intros Hrow Hlu Hnz Hlt. rewrite checkLoginAttempt_eq. cbv zeta.
  rewrite Hrow. unfold locked_and. rewrite Hlu.
  destruct (Z.eqb_spec lockedUntil 0) as [?|_]; [done|].
  destruct (Z.ltb_spec now lockedUntil) as [_|?]; [|lia].
  reflexivity.
Qed.

(** Only a [checkLoginAttempt] or a [clearLoginAttempts] on the key of a
    record can remove it. *)
Lemma record_removed_by c st key row :
  login_attempts_ip st !! key = Some row →
  login_attempts_ip (exec c st) !! key = None →
  match c with
  | CheckLoginAttempt ip' _ | ClearLoginAttempts ip' => login_key ip' = key
  | RecordFailedLogin _ _ | ConsumeApiWriteBudget _ _ => False
  end.
Proof.
  intros Hrow. destruct c as [ip' now'|ip' now'|ip'|identifier now']; cbn [exec].
  - rewrite checkLoginAttempt_eq. cbv zeta.
    destruct (login_attempts_ip st !! login_key ip') as [r|]; [|cbn; congruence].
    destruct (locked_and r _); [cbn; congruence|].
    destruct (locked_and r _); [|cbn; congruence].
    cbn. intros Hnone. destruct (decide (login_key ip' = key)) as [|Hne]; [done|].
    rewrite lookup_delete_ne in Hnone by done. congruence.
  - rewrite recordFailedLogin_eq. cbv zeta.
    destruct (5 <=? _); cbn; intros Hnone;
      (destruct (decide (login_key ip' = key)) as [<-|Hne];
       [by rewrite lookup_insert_eq in Hnone
       |rewrite lookup_insert_ne in Hnone by done; congruence]).
  - rewrite clearLoginAttempts_eq. cbn. intros Hnone.
    destruct (decide (login_key ip' = key)) as [|Hne]; [done|].
    rewrite lookup_delete_ne in Hnone by done. congruence.
  - rewrite consume_login. congruence.
Qed.

(** C6. A record whose [locked_until] is at or before the current time makes
    [checkLoginAttempt] delete it and answer [allowed = true] with the full
    budget of 5.  Nothing sweeps the table: of the four methods only a
    [checkLoginAttempt] (or the explicit [clearLoginAttempts]) on the key of
    the record removes it.  The lock is a timestamp other than [0], which
    JavaScript takes for no lock; [reachable_login_rows_ok] shows the locks
    the service writes are positive. *)
Theorem expired_lock_reset_on_check st ip now row lockedUntil :
  login_attempts_ip st !! login_key ip = Some row →
  locked_until row = Some lockedUntil →
  lockedUntil ≠ 0 →
  lockedUntil ≤ now →
  let '(r, st') := checkLoginAttempt ip now st in
  r = {| CheckResult.allowed := true;
         CheckResult.remainingAttempts := 5;
         CheckResult.retryAfterSeconds := None |}
  ∧ login_attempts_ip st' = delete (login_key ip) (login_attempts_ip st)
  ∧ login_attempts_ip st' !! login_key ip = None
  ∧ ∀ c, login_attempts_ip (exec c st) !! login_key ip = None →
      match c with
      | CheckLoginAttempt ip' _ | ClearLoginAttempts ip' =>
          login_key ip' = login_key ip
      | RecordFailedLogin _ _ | ConsumeApiWriteBudget _ _ => False
      end.
Proof.
  intros Hrow Hlu Hnz Hle.
  rewrite (check_expired ip now st row lockedUntil) by done.
  split; [done|]. split; [done|]. split; [apply lookup_delete_eq|].
  intros c. by apply record_removed_by with (row := row).
Qed.

(** C7. A record whose [locked_until] is after the current time makes
    [checkLoginAttempt] answer [allowed = false], [remainingAttempts = 0] and
    [retryAfterSeconds = ceil((locked_until - now) / 1000)], leaving the
    rows as they are; and a check at [now1], made after the failure at
    [now0] that set the lock and before the two minutes are over, answers a
    [retryAfterSeconds] in 1..120. *)
Theorem active_lock_denies :
  (∀ st ip now row lockedUntil,
     login_attempts_ip st !! login_key ip = Some row →
     locked_until row = Some lockedUntil →
     0 ≤ now →
     now < lockedUntil →
     (checkLoginAttempt ip now st).1 =
       {| CheckResult.allowed := false;
          CheckResult.remainingAttempts := 0;
          CheckResult.retryAfterSeconds :=
            Some (Js.ceil_div (lockedUntil - now) 1000) |}
     ∧ login_attempts_ip (checkLoginAttempt ip now st).2 = login_attempts_ip st
     ∧ 1000 * (Js.ceil_div (lockedUntil - now) 1000 - 1)
         < lockedUntil - now ≤ 1000 * Js.ceil_div (lockedUntil - now) 1000)
  ∧ (∀ st ip now0 now1,
       0 ≤ now0 →
       now0 ≤ now1 < now0 + 120000 →
       RecordResult.locked (recordFailedLogin ip now0 st).1 = true →
       ∃ retry,
         (checkLoginAttempt ip now1 (recordFailedLogin ip now0 st).2).1 =
           {| CheckResult.allowed := false;
              CheckResult.remainingAttempts := 0;
              CheckResult.retryAfterSeconds := Some retry |}
         ∧ 0 < retry ≤ 120).
Proof.
  split.
  - intros st ip now row lockedUntil Hrow Hlu Hnow Hlt.
    rewrite (check_locked ip now st row lockedUntil) by (done || lia).
    split; [done|]. split; [done|]. apply ceil_div_spec.
  - intros st ip now0 now1 Hnow0 Hnow1 Hlocked.
    exists (Js.ceil_div (now0 + 120000 - now1) 1000).
    revert Hlocked. rewrite recordFailedLogin_eq. cbv zeta.
    destruct (5 <=? _); cbn [fst snd RecordResult.locked]; [intros _|done].
    erewrite check_locked;
      [|cbn; apply lookup_insert_eq|reflexivity|lia|lia].
    split; [done|].
    pose proof (ceil_div_spec (now0 + 120000 - now1)). lia.
Qed.

Lemma active_lock_denies_witness :
  let st := (run_all (recordFailedLogin "1.2.3.4" <$> replicate 4 1000)
               empty_state).2 in
  ((checkLoginAttempt "1.2.3.4" 1500 (recordFailedLogin "1.2.3.4" 1000 st).2).1 =
     {| CheckResult.allowed := false;
        CheckResult.remainingAttempts := 0;
        CheckResult.retryAfterSeconds := Some 120 |})
  ∧ ∃ retry,
      (checkLoginAttempt "1.2.3.4" 61000 (recordFailedLogin "1.2.3.4" 1000 st).2).1 =
        {| CheckResult.allowed := false;
           CheckResult.remainingAttempts := 0;
           CheckResult.retryAfterSeconds := Some retry |}
      ∧ 0 < retry ≤ 120.
Proof.
  intros st. split.
  - refine (proj1 (proj1 active_lock_denies
                     (recordFailedLogin "1.2.3.4" 1000 st).2 "1.2.3.4" 1500
                     {| attempts := 5; locked_until := Some 121000;
                        updated_at := 1000 |} 121000 _ _ _ _)).
    + reflexivity.
    + reflexivity.
    + lia.
    + lia.
  - apply (proj2 active_lock_denies st "1.2.3.4" 1000 61000).
    + lia.
    + lia.
    + reflexivity.
Defined.

Lemma expired_lock_reset_on_check_witness :
  let st := (run_all (recordFailedLogin "1.2.3.4" <$> replicate 5 1000)
               empty_state).2 in
  let '(r, st') := checkLoginAttempt "1.2.3.4" 121000 st in
  r = {| CheckResult.allowed := true;
         CheckResult.remainingAttempts := 5;
         CheckResult.retryAfterSeconds := None |}
  ∧ login_attempts_ip st' = delete (login_key "1.2.3.4") (login_attempts_ip st)
  ∧ login_attempts_ip st' !! login_key "1.2.3.4" = None
  ∧ ∀ c, login_attempts_ip (exec c st) !! login_key "1.2.3.4" = None →
      match c with
      | CheckLoginAttempt ip' _ | ClearLoginAttempts ip' =>
          login_key ip' = login_key "1.2.3.4"
      | RecordFailedLogin _ _ | ConsumeApiWriteBudget _ _ => False
      end.
Proof.
  intros st.
  apply (expired_lock_reset_on_check st "1.2.3.4" 121000
           {| attempts := 5; locked_until := Some 121000; updated_at := 1000 |}
           121000).
  - reflexivity.
  - reflexivity.
  - lia.
  - lia.
Defined.

(** C8. [clearLoginAttempts] deletes the record of the key whatever the
    state was, and a [checkLoginAttempt] right after it answers
    [allowed = true] with [remainingAttempts = 5]. *)
Theorem clear_then_check_full st ip now :
  login_attempts_ip (clearLoginAttempts ip st).2
    = delete (login_key ip) (login_attempts_ip st)
  ∧ login_attempts_ip (clearLoginAttempts ip st).2 !! login_key ip = None
  ∧ (checkLoginAttempt ip now (clearLoginAttempts ip st).2).1 =
      {| CheckResult.allowed := true;
         CheckResult.remainingAttempts := 5;
         CheckResult.retryAfterSeconds := None |}.
Proof.
  rewrite clearLoginAttempts_eq. cbn [snd].
  split; [done|]. split; [apply lookup_delete_eq|].
  rewrite checkLoginAttempt_eq. cbv zeta. cbn [with_login login_attempts_ip].
  by rewrite lookup_delete_eq.
Qed.

(** C3, as the code has it.  On a record whose lock has run out,
    [checkLoginAttempt] deletes the record and answers with the full budget.
    [recordFailedLogin] does not look at [locked_until]: it keeps the
    record, adds one to the old attempt count, and locks again until
    [now + 2 minutes] when the new count is at least 5. *)
Theorem expired_lock_next_call st ip now row lockedUntil :
  login_attempts_ip st !! login_key ip = Some row →
  locked_until row = Some lockedUntil →
  lockedUntil ≠ 0 →
  lockedUntil ≤ now →
  ((checkLoginAttempt ip now st).1 =
     {| CheckResult.allowed := true;
        CheckResult.remainingAttempts := 5;
        CheckResult.retryAfterSeconds := None |}
   ∧ login_attempts_ip (checkLoginAttempt ip now st).2 !! login_key ip = None)
  ∧ (let '(r, st') := recordFailedLogin ip now st in
     r = (if 5 <=? attempts row + 1 then now_locked else not_locked)
     ∧ login_attempts_ip st' !! login_key ip =
         Some {| attempts := attempts row + 1;
                 locked_until :=
                   if 5 <=? attempts row + 1 then Some (now + 120000)
                   else Some lockedUntil;
                 updated_at := now |}).
Proof.
  intros Hrow Hlu Hnz Hle. split.
  - rewrite (check_expired ip now st row lockedUntil) by done.
    split; [done|]. apply lookup_delete_eq.
  - rewrite recordFailedLogin_eq. cbv zeta. rewrite Hrow. cbn [attempts].
    destruct (5 <=? attempts row + 1); cbn; rewrite lookup_insert_eq;
      [done|by rewrite Hlu].
Qed.

Lemma expired_lock_next_call_witness :
  let st := (run_all (recordFailedLogin "1.2.3.4" <$> replicate 5 1000)
               empty_state).2 in
  (checkLoginAttempt "1.2.3.4" 200000 st).1 =
    {| CheckResult.allowed := true;
       CheckResult.remainingAttempts := 5;
       CheckResult.retryAfterSeconds := None |}
  ∧ (recordFailedLogin "1.2.3.4" 200000 st).1 = now_locked.
Proof.
  intros st.
  pose proof (expired_lock_next_call st "1.2.3.4" 200000
                {| attempts := 5; locked_until := Some 121000;
                   updated_at := 1000 |} 121000
                eq_refl eq_refl ltac:(lia) ltac:(lia)) as [[Hcheck _] Hrecord].
  split; [exact Hcheck|].
  destruct (recordFailedLogin "1.2.3.4" 200000 st) as [r st'].
  exact (proj1 Hrecord).
Defined.

(** C3, as stated, fails for [recordFailedLogin].  Five failures at time
    1000 lock "1.2.3.4" until 121000.  A sixth failure at 200000, when the
    lock has run out, answers [locked: true] on a record that now counts 6
    attempts; on a fresh record the same call answers [locked: false] and
    stores a count of 1. *)
Lemma record_after_expired_lock_continues_count :
  let st := (run_all (recordFailedLogin "1.2.3.4" <$> replicate 5 1000)
               empty_state).2 in
  let fresh := (clearLoginAttempts "1.2.3.4" st).2 in
  login_attempts_ip st !! login_key "1.2.3.4" =
    Some {| attempts := 5; locked_until := Some 121000; updated_at := 1000 |}
  ∧ 121000 ≤ 200000
  ∧ (recordFailedLogin "1.2.3.4" 200000 st).1 =
      {| RecordResult.locked := true;
         RecordResult.retryAfterSeconds := Some 120 |}
  ∧ login_attempts_ip (recordFailedLogin "1.2.3.4" 200000 st).2
        !! login_key "1.2.3.4" =
      Some {| attempts := 6; locked_until := Some 320000;
              updated_at := 200000 |}
  ∧ (recordFailedLogin "1.2.3.4" 200000 fresh).1 =
      {| RecordResult.locked := false; RecordResult.retryAfterSeconds := None |}
  ∧ login_attempts_ip (recordFailedLogin "1.2.3.4" 200000 fresh).2
        !! login_key "1.2.3.4" =
      Some {| attempts := 1; locked_until := None; updated_at := 200000 |}
  ∧ (recordFailedLogin "1.2.3.4" 200000 st).1
      ≠ (recordFailedLogin "1.2.3.4" 200000 fresh).1.
Proof. vm_compute. repeat split; congruence. Qed.

(** ** The identifier of a request *)

Lemma split_first_nonempty sep s : Js.split sep s ≠ [].
Proof.
  destruct s as [|c s]; cbn; [done|].
  destruct (Ascii.eqb c sep); [done|].
  by destruct (Js.split sep s).
Qed.

(** C9, as the code has it.  The edge header wins when it is present and
    not empty; otherwise the first comma-separated entry of the
    forwarded-for header, trimmed, when that header is present and not
    empty; otherwise the sentinel "unknown".  The three requests of the
    specification resolve to "9.9.9.9", "1.1.1.1" and "unknown". *)
Theorem client_identifier_precedence request :
  let cf := headers_get request "CF-Connecting-IP" in
  let xff := headers_get request "X-Forwarded-For" in
  (∀ cfIp, cf = Some cfIp → cfIp ≠ ""%string →
     getClientIdentifier request = cfIp)
  ∧ (∀ forwardedFor,
       cf = None ∨ cf = Some ""%string →
       xff = Some forwardedFor → forwardedFor ≠ ""%string →
       getClientIdentifier request
         = Js.trim (Js.first (Js.split "," forwardedFor)))
  ∧ (cf = None ∨ cf = Some ""%string →
     xff = None ∨ xff = Some ""%string →
     getClientIdentifier request = "unknown"%string)
  ∧ getClientIdentifier
      {| headers := {[ "cf-connecting-ip"%string := "9.9.9.9"%string;
                       "x-forwarded-for"%string := "1.1.1.1, 2.2.2.2"%string ]} |}
      = "9.9.9.9"%string
  ∧ getClientIdentifier
      {| headers := {[ "x-forwarded-for"%string := "1.1.1.1, 2.2.2.2"%string ]} |}
      = "1.1.1.1"%string
  ∧ getClientIdentifier {| headers := ∅ |} = "unknown"%string.
Proof.
  intros cf xff. unfold getClientIdentifier. fold cf xff.
  split; [|split; [|split]].
  - intros cfIp -> Hne. by destruct cfIp.
  - intros forwardedFor Hcf -> Hne.
    destruct Hcf as [-> | ->]; by destruct forwardedFor.
  - intros [-> | ->] [-> | ->]; reflexivity.
  - repeat split; reflexivity.
Qed.

Lemma client_identifier_precedence_witness :
  let request :=
    {| headers := {[ "cf-connecting-ip"%string := ""%string;
                     "x-forwarded-for"%string := " 10.0.0.1 ,10.0.0.2"%string ]} |} in
  getClientIdentifier request = "10.0.0.1"%string.
Proof.
  intros request.
  exact (proj1 (proj2 (client_identifier_precedence request))
           " 10.0.0.1 ,10.0.0.2"%string
           (or_intror eq_refl) eq_refl ltac:(discriminate)).
Defined.

(** C9, as stated, fails on a request whose forwarded-for header is present
    with an empty value and that has no edge header: the header is present,
    its first entry, trimmed, is the empty string, and the code answers
    "unknown". *)
Lemma empty_forwarded_for_gives_sentinel :
  let request := {| headers := {[ "x-forwarded-for"%string := ""%string ]} |} in
  headers_get request "CF-Connecting-IP" = None
  ∧ headers_get request "X-Forwarded-For" = Some ""%string
  ∧ getClientIdentifier request = "unknown"%string
  ∧ resolveIdentifier_as_claimed request = ""%string
  ∧ getClientIdentifier request ≠ resolveIdentifier_as_claimed request.
Proof. vm_compute. repeat split; congruence. Qed.

(** ** Normalisation of the login key *)

Lemma trimStart_clean s : starts_clean (Js.trimStart s).
Proof.
  induction s as [|c s IH]; cbn; [done|].
  destruct (Js.is_space c) eqn:E; [done|]. by cbn.
Qed.

Lemma trimStart_of_clean s : starts_clean s → Js.trimStart s = s.
Proof. destruct s as [|c s]; cbn; [done|]. by intros ->. Qed.

Lemma trimEnd_clean s : starts_clean s → starts_clean (Js.trimEnd s).
Proof.
  destruct s as [|c s]; cbn; [done|]. intros Hc. rewrite Hc.
  by destruct (Js.trimEnd s).
Qed.

Lemma trimEnd_idem s : Js.trimEnd (Js.trimEnd s) = Js.trimEnd s.
Proof.
  induction s as [|c s IH]; cbn; [done|].
  destruct (Js.trimEnd s) as [|c' t] eqn:E.
  - destruct (Js.is_space c) eqn:Hc; cbn; [done|]. by rewrite Hc.
  - cbn [Js.trimEnd]. cbn [Js.trimEnd] in IH. by rewrite IH.
Qed.

Lemma trim_idem s : Js.trim (Js.trim s) = Js.trim s.
Proof.
  unfold Js.trim.
  rewrite (trimStart_of_clean (Js.trimEnd (Js.trimStart s)))
    by apply trimEnd_clean, trimStart_clean.
  apply trimEnd_idem.
Qed.

Lemma trim_blank s : Js.blank s = true → Js.trim s = ""%string.
Proof.
  unfold Js.trim. induction s as [|c s IH]; cbn; [done|].
  intros [Hc Hs]%andb_prop. rewrite Hc. by apply IH.
Qed.

Lemma login_key_trim ip : login_key (Js.trim ip) = login_key ip.
Proof. unfold login_key. by rewrite trim_idem. Qed.

Lemma login_key_blank ip :
  Js.blank ip = true → login_key ip = login_key "unknown".
Proof. intros Hb. unfold login_key. by rewrite (trim_blank ip Hb). Qed.

Lemma same_key_same_calls ip ip' now st :
  login_key ip = login_key ip' →
  checkLoginAttempt ip now st = checkLoginAttempt ip' now st
  ∧ recordFailedLogin ip now st = recordFailedLogin ip' now st
  ∧ clearLoginAttempts ip st = clearLoginAttempts ip' st.
Proof.
  intros Hkey.
  rewrite !checkLoginAttempt_eq, !recordFailedLogin_eq, !clearLoginAttempts_eq.
  cbv zeta. by rewrite Hkey.
Qed.

(** C10. The three login-guard methods act the same on [ip] and on its
    trimmed form, and on an empty or white-space-only [ip] they act as on
    "unknown", whose key is the string "unknown" itself.
    [consumeApiWriteBudget] keys its row by the identifier as given: the row
    [(identifier, windowStart)] is there after the call and every other row,
    the one of the trimmed identifier included when it differs, is as it
    was. *)
Theorem login_key_normalised ip identifier now st :
  (checkLoginAttempt (Js.trim ip) now st = checkLoginAttempt ip now st
   ∧ recordFailedLogin (Js.trim ip) now st = recordFailedLogin ip now st
   ∧ clearLoginAttempts (Js.trim ip) st = clearLoginAttempts ip st)
  ∧ (Js.blank ip = true →
     login_key ip = "unknown"%string
     ∧ checkLoginAttempt ip now st = checkLoginAttempt "unknown" now st
     ∧ recordFailedLogin ip now st = recordFailedLogin "unknown" now st
     ∧ clearLoginAttempts ip st = clearLoginAttempts "unknown" st)
  ∧ (let st' := (consumeApiWriteBudget identifier now st).2 in
     let k := (identifier, window_start (now / 1000)) in
     is_Some (api_rate_limits st' !! k)
     ∧ (∀ k', k' ≠ k → api_rate_limits st' !! k' = api_rate_limits st !! k')
     ∧ (Js.trim identifier ≠ identifier →
        ∀ w, api_rate_limits st' !! (Js.trim identifier, w)
             = api_rate_limits st !! (Js.trim identifier, w))).
Proof.
  split; [|split].
  - apply same_key_same_calls, login_key_trim.
  - intros Hb. split; [exact (login_key_blank ip Hb)|].
    apply same_key_same_calls, login_key_blank, Hb.
  - cbv zeta. split; [|split].
    + rewrite consume_eq. cbv zeta.
      destruct (api_rate_limits st !! _) as [count|] eqn:E; cbn.
      * destruct (count <? _); cbn; [by rewrite lookup_insert_eq|by rewrite E].
      * by rewrite lookup_insert_eq.
    + intros k' Hk'. by apply consume_other.
    + intros Hne w. apply consume_other. congruence.
Qed.

Lemma login_key_normalised_witness :
  let st := (recordFailedLogin "1.2.3.4" 1000 empty_state).2 in
  (checkLoginAttempt "   " 2000 st = checkLoginAttempt "unknown" 2000 st)
  ∧ api_rate_limits (consumeApiWriteBudget " a" 61500 st).2 !! ("a"%string, 60)
      = api_rate_limits st !! ("a"%string, 60).
Proof.
  intros st.
  pose proof (login_key_normalised "   " " a" 61500 st) as (_ & _ & _ & _ & Hraw).
  pose proof (login_key_normalised "   " " a" 2000 st) as (_ & Hblank & _).
  split.
  - exact (proj1 (proj2 (Hblank eq_refl))).
  - exact (Hraw ltac:(discriminate) 60).
Defined.

(** * Further properties of the service *)

(** ** The schema flag *)



(** ** What a method leaves alone *)

Lemma check_rows ip now st :
  login_attempts_ip (checkLoginAttempt ip now st).2 = login_attempts_ip st
  ∨ ∃ row lockedUntil,
      login_attempts_ip st !! login_key ip = Some row
      ∧ locked_until row = Some lockedUntil
      ∧ lockedUntil ≠ 0
      ∧ lockedUntil ≤ now
      ∧ login_attempts_ip (checkLoginAttempt ip now st).2
          = delete (login_key ip) (login_attempts_ip st).
Proof.
  rewrite checkLoginAttempt_eq. cbv zeta.
  destruct (login_attempts_ip st !! login_key ip) as [row|] eqn:E; [|by left].
  unfold locked_and.
  destruct (locked_until row) as [lockedUntil|] eqn:L; cbn; [|by left].
  destruct (Z.eqb_spec lockedUntil 0) as [?|Hnz]; cbn; [by left|].
  destruct (Z.ltb_spec now lockedUntil) as [?|Hle]; cbn; [by left|].
  destruct (Z.leb_spec lockedUntil now) as [_|?]; [|lia].
  right. by exists row, lockedUntil.
Qed.

Lemma login_calls_keep_other_rows c st key' :
  match c with
  | CheckLoginAttempt ip _ | RecordFailedLogin ip _ | ClearLoginAttempts ip =>
      key' ≠ login_key ip
  | ConsumeApiWriteBudget _ _ => True
  end →
  login_attempts_ip (exec c st) !! key' = login_attempts_ip st !! key'.
Proof.
  destruct c as [ip now|ip now|ip|identifier now]; cbn [exec]; intros Hne.
  - destruct (check_rows ip now st) as [->|(row & lu & _ & _ & _ & _ & ->)];
      [done|]. by rewrite lookup_delete_ne.
  - rewrite recordFailedLogin_eq. cbv zeta.
    destruct (5 <=? _); cbn; by rewrite lookup_insert_ne.
  - rewrite clearLoginAttempts_eq. cbn. by rewrite lookup_delete_ne.
  - by rewrite consume_login.
Qed.

(** A login-guard method on [ip] touches no row of [login_attempts_ip] but
    the one of [login_key ip], and no row of [api_rate_limits];
    [consumeApiWriteBudget] touches no row of [login_attempts_ip]. *)
Theorem methods_touch_only_their_row ip identifier now st key' :
  key' ≠ login_key ip →
  (login_attempts_ip (checkLoginAttempt ip now st).2 !! key'
     = login_attempts_ip st !! key'
   ∧ login_attempts_ip (recordFailedLogin ip now st).2 !! key'
       = login_attempts_ip st !! key'
   ∧ login_attempts_ip (clearLoginAttempts ip st).2 !! key'
       = login_attempts_ip st !! key')
  ∧ (api_rate_limits (checkLoginAttempt ip now st).2 = api_rate_limits st
     ∧ api_rate_limits (recordFailedLogin ip now st).2 = api_rate_limits st
     ∧ api_rate_limits (clearLoginAttempts ip st).2 = api_rate_limits st)
  ∧ login_attempts_ip (consumeApiWriteBudget identifier now st).2
      = login_attempts_ip st.
Proof.
  intros Hne. split; [|split].
  - split; [|split].
    + by apply (login_calls_keep_other_rows (CheckLoginAttempt ip now)).
    + by apply (login_calls_keep_other_rows (RecordFailedLogin ip now)).
    + by apply (login_calls_keep_other_rows (ClearLoginAttempts ip)).
  - split; [|split].
    + by apply (login_calls_keep_budget (CheckLoginAttempt ip now)).
    + by apply (login_calls_keep_budget (RecordFailedLogin ip now)).
    + by apply (login_calls_keep_budget (ClearLoginAttempts ip)).
  - apply consume_login.
Qed.

Lemma methods_touch_only_their_row_witness :
  let st := (recordFailedLogin "10.0.0.9" 1000 empty_state).2 in
  login_attempts_ip (recordFailedLogin "1.2.3.4" 2000 st).2 !! "10.0.0.9"%string
    = login_attempts_ip st !! "10.0.0.9"%string.
Proof.
  intros st.
  exact (proj1 (proj2 (proj1
           (methods_touch_only_their_row "1.2.3.4" "a" 2000 st "10.0.0.9"
              ltac:(discriminate))))).
Defined.

(** [checkLoginAttempt] repeated at the same clock value answers the same
    and changes nothing more; and it writes only to drop a record whose
    lock has run out. *)
Theorem check_is_idempotent ip now st :
  checkLoginAttempt ip now (checkLoginAttempt ip now st).2
    = checkLoginAttempt ip now st
  ∧ (login_attempts_ip (checkLoginAttempt ip now st).2 = login_attempts_ip st
     ∨ ∃ row lockedUntil,
         login_attempts_ip st !! login_key ip = Some row
         ∧ locked_until row = Some lockedUntil
         ∧ lockedUntil ≠ 0
         ∧ lockedUntil ≤ now
         ∧ login_attempts_ip (checkLoginAttempt ip now st).2
             = delete (login_key ip) (login_attempts_ip st)).
Proof.
  split; [|apply check_rows].
  rewrite (checkLoginAttempt_eq ip now st). cbv zeta.
  destruct (login_attempts_ip st !! login_key ip) as [row|] eqn:E.
  - destruct (locked_and row (λ lockedUntil, now <? lockedUntil)) eqn:L1.
    + rewrite checkLoginAttempt_eq. cbv zeta. cbn [snd ready login_attempts_ip].
      by rewrite E, L1.
    + destruct (locked_and row (λ lockedUntil, lockedUntil <=? now)) eqn:L2.
      * rewrite checkLoginAttempt_eq. cbv zeta.
        cbn [snd with_login login_attempts_ip]. rewrite lookup_delete_eq.
        reflexivity.
      * rewrite checkLoginAttempt_eq. cbv zeta.
        cbn [snd ready login_attempts_ip]. by rewrite E, L1, L2.
  - rewrite checkLoginAttempt_eq. cbv zeta. cbn [snd ready login_attempts_ip].
    by rewrite E.
Qed.

(** ** More on the write budget *)

(** A rejected call writes nothing at all, and is rejected exactly because
    the count of its window has reached 120; an accepted call adds one to
    that count and reports what is left of the 120. *)
Theorem budget_answer_matches_store identifier now st :
  let ws := window_start (now / 1000) in
  let '(r, st') := consumeApiWriteBudget identifier now st in
  if BudgetResult.allowed r then
    count_at st identifier ws < 120
    ∧ count_at st' identifier ws = count_at st identifier ws + 1
    ∧ BudgetResult.remaining r = 120 - count_at st' identifier ws
    ∧ BudgetResult.retryAfterSeconds r = None
  else
    120 ≤ count_at st identifier ws
    ∧ st' = st
    ∧ BudgetResult.remaining r = 0
    ∧ BudgetResult.retryAfterSeconds r = Some (ws + 60 - now / 1000).
Proof.
  intros ws. pose proof (consume_count identifier now st ws eq_refl) as H.
  cbv zeta in H. destruct (consumeApiWriteBudget identifier now st) as [r st'].
  change CONFIG.API_WRITE_REQUESTS_PER_MINUTE with 120 in H.
  change CONFIG.API_WINDOW_SECONDS with 60 in H.
  destruct (Z.ltb_spec (count_at st identifier ws) 120) as [Hlt|Hge].
  - destruct H as [-> Hrow]. cbn.
    assert (Hc : count_at st' identifier ws = count_at st identifier ws + 1)
      by (unfold count_at at 1; by rewrite Hrow).
    rewrite Hc. repeat split; lia.
  - destruct H as [-> ->]. cbn. repeat split; lia.
Qed.

(** On an epoch clock the window of a call is the minute it falls in:
    [windowStart] is the start of that minute in seconds, a multiple of 60
    with [windowStart ≤ nowSec < windowStart + 60]; two calls share a window
    exactly when they fall in the same minute. *)
Theorem window_is_the_epoch_minute now now' :
  0 ≤ now →
  0 ≤ now' →
  let ws := window_start (now / 1000) in
  ws = 60 * (now / 60000)
  ∧ ws ≤ now / 1000 < ws + 60
  ∧ (in_window ws now' ↔ now' / 60000 = now / 60000).
Proof.
  intros Hnow Hnow' ws.
  assert (Hws : ∀ t, 0 ≤ t → window_start (t / 1000) = 60 * (t / 60000)).
  { intros t Ht. unfold window_start. change CONFIG.API_WINDOW_SECONDS with 60.
    assert (0 ≤ t / 1000) by (apply Z.div_pos; lia).
    rewrite Z.rem_mod_nonneg by lia.
    replace (t / 60000) with (t / 1000 / 60)
      by (rewrite Z.div_div by lia; reflexivity).
    pose proof (Z.div_mod (t / 1000) 60 ltac:(lia)). lia. }
  subst ws. unfold in_window. rewrite !Hws by done.
  split; [done|]. split; [|lia].
  replace (now / 60000) with (now / 1000 / 60)
    by (rewrite Z.div_div by lia; reflexivity).
  pose proof (Z.div_mod (now / 1000) 60 ltac:(lia)).
  pose proof (Z.mod_pos_bound (now / 1000) 60 ltac:(lia)). lia.
Qed.

Lemma window_is_the_epoch_minute_witness :
  window_start (119999 / 1000) = 60 * (119999 / 60000)
  ∧ window_start (119999 / 1000) ≤ 119999 / 1000
      < window_start (119999 / 1000) + 60
  ∧ (in_window (window_start (119999 / 1000)) 60000
     ↔ 60000 / 60000 = 119999 / 60000).
Proof.
  apply (window_is_the_epoch_minute 119999 60000); lia.
Defined.

(** No call of any method removes a row of [api_rate_limits] or lowers its
    count: a row, once written, stays, and one call raises it by at most
    one. *)
Theorem budget_rows_persist c st k count :
  api_rate_limits st !! k = Some count →
  ∃ count',
    api_rate_limits (exec c st) !! k = Some count'
    ∧ count ≤ count' ≤ count + 1.
Proof.
  intros Hrow.
  destruct c as [ip now|ip now|ip|identifier now];
    try (rewrite login_calls_keep_budget by done; exists count; split; [done|lia]).
  cbn [exec].
  destruct (decide (k = (identifier, window_start (now / 1000)))) as [->|Hk].
  - rewrite consume_eq. cbv zeta. rewrite Hrow.
    destruct (count <? CONFIG.API_WRITE_REQUESTS_PER_MINUTE); cbn.
    + rewrite lookup_insert_eq. exists (count + 1). split; [done|lia].
    + exists count. split; [done|lia].
  - rewrite consume_other by done. exists count. split; [done|lia].
Qed.

Lemma budget_rows_persist_witness :
  let st := exec (ConsumeApiWriteBudget "203.0.113.7" 61500) empty_state in
  ∃ count',
    api_rate_limits (exec (ConsumeApiWriteBudget "203.0.113.7" 200000) st)
      !! ("203.0.113.7"%string, 60) = Some count'
    ∧ 1 ≤ count' ≤ 1 + 1.
Proof.
  intros st.
  exact (budget_rows_persist (ConsumeApiWriteBudget "203.0.113.7" 200000) st
           ("203.0.113.7"%string, 60) 1 eq_refl).
Defined.

Lemma consume_result_other identifier now identifier' now' st :
  budget_key identifier now ≠ budget_key identifier' now' →
  (consumeApiWriteBudget identifier' now'
     (consumeApiWriteBudget identifier now st).2).1
    = (consumeApiWriteBudget identifier' now' st).1.
Proof.
  intros Hne. rewrite (consume_eq identifier' now'). cbv zeta.
  rewrite consume_other by (unfold budget_key in Hne; congruence).
  rewrite (consume_eq identifier' now' st). cbv zeta.
  destruct (api_rate_limits st !! _) as [count|]; [|done].
  by destruct (count <? _).
Qed.

Lemma consume_budget_table identifier now st :
  api_rate_limits (consumeApiWriteBudget identifier now st).2 =
    match api_rate_limits st !! budget_key identifier now with
    | None => <[budget_key identifier now := 1]> (api_rate_limits st)
    | Some count =>
        if count <? 120
        then <[budget_key identifier now := count + 1]> (api_rate_limits st)
        else api_rate_limits st
    end.
Proof.
  rewrite consume_eq. cbv zeta. unfold budget_key.
  destruct (api_rate_limits st !! _) as [count|]; [|done].
  change CONFIG.API_WRITE_REQUESTS_PER_MINUTE with 120.
  by destruct (count <? 120).
Qed.

Lemma consume_flag identifier now st :
  loginIpTableReady (consumeApiWriteBudget identifier now st).2
    = loginIpTableReady st.
Proof.
  rewrite consume_eq. cbv zeta.
  destruct (api_rate_limits st !! _) as [count|]; [|done].
  by destruct (count <? _).
Qed.

Lemma state_eq st st' :
  login_attempts_ip st = login_attempts_ip st' →
  api_rate_limits st = api_rate_limits st' →
  loginIpTableReady st = loginIpTableReady st' →
  st = st'.
Proof. destruct st, st'. cbn. by intros -> -> ->. Qed.

(** Calls that address different rows, be it by identifier or by window, do
    not see each other: either order gives each call the answer it would get
    alone, and the same final state. *)
Theorem budgets_are_independent identifier now identifier' now' st :
  budget_key identifier now ≠ budget_key identifier' now' →
  let first := consumeApiWriteBudget identifier now st in
  let second := consumeApiWriteBudget identifier' now' st in
  (consumeApiWriteBudget identifier' now' first.2).1 = second.1
  ∧ (consumeApiWriteBudget identifier now second.2).1 = first.1
  ∧ (consumeApiWriteBudget identifier' now' first.2).2
      = (consumeApiWriteBudget identifier now second.2).2.
Proof.
  intros Hne first second. subst first second.
  split; [by apply consume_result_other|].
  split; [by apply consume_result_other|].
  apply state_eq.
  - by rewrite !consume_login.
  - rewrite !consume_budget_table.
    set (k := budget_key identifier now) in *.
    set (k' := budget_key identifier' now') in *.
    assert (Hk' : match api_rate_limits st !! k with
                  | None => <[k := 1]> (api_rate_limits st)
                  | Some count =>
                      if count <? 120
                      then <[k := count + 1]> (api_rate_limits st)
                      else api_rate_limits st
                  end !! k' = api_rate_limits st !! k').
    { destruct (api_rate_limits st !! k) as [count|];
        [destruct (count <? 120)|]; by rewrite ?lookup_insert_ne. }
    assert (Hk : match api_rate_limits st !! k' with
                 | None => <[k' := 1]> (api_rate_limits st)
                 | Some count =>
                     if count <? 120
                     then <[k' := count + 1]> (api_rate_limits st)
                     else api_rate_limits st
                 end !! k = api_rate_limits st !! k).
    { destruct (api_rate_limits st !! k') as [count|];
        [destruct (count <? 120)|]; by rewrite ?lookup_insert_ne. }
    rewrite Hk', Hk.
    destruct (api_rate_limits st !! k) as [count|],
             (api_rate_limits st !! k') as [count'|];
      repeat match goal with |- context [?x <? 120] => destruct (x <? 120) end;
      try reflexivity; by apply insert_insert_ne.
  - by rewrite !consume_flag.
Qed.

Lemma budgets_are_independent_witness :
  let st := exec (ConsumeApiWriteBudget "a" 61500) empty_state in
  (consumeApiWriteBudget "b" 61500 (consumeApiWriteBudget "a" 62000 st).2).1
    = (consumeApiWriteBudget "b" 61500 st).1.
Proof.
  intros st.
  exact (proj1 (budgets_are_independent "a" 62000 "b" 61500 st
                  ltac:(discriminate))).
Defined.

(** ** The rows and keys of reachable states *)

Lemma exec_rows_shaped c st :
  clock_ok c → rows_shaped st → rows_shaped (exec c st).
Proof.
  intros Hclock Hok key row.
  destruct c as [ip now|ip now|ip|identifier now]; cbn [exec clock_ok] in *.
  - destruct (check_rows ip now st) as [->|(r & lu & _ & _ & _ & _ & ->)];
      [apply Hok|].
    intros Hrow. apply lookup_delete_Some in Hrow as [_ Hrow].
    exact (Hok _ _ Hrow).
  - rewrite recordFailedLogin_eq. cbv zeta.
    set (new := match login_attempts_ip st !! login_key ip with
                | Some old => _ | None => _ end).
    assert (Hnew : 1 ≤ attempts new ∧ updated_at new = now
                   ∧ (attempts new < 5 → locked_until new = None)).
    { subst new. destruct (login_attempts_ip st !! login_key ip) as [old|] eqn:E.
      - destruct (Hok _ _ E) as (H1 & _ & H3). cbn. split; [lia|]. split; [done|].
        intros Hlt. rewrite H3.
        destruct (Z.leb_spec 5 (attempts old)) as [?|_]; [lia|done].
      - cbn. split; [lia|]. by split. }
    destruct Hnew as (Hnew1 & Hnew2 & Hnew3).
    destruct (Z.leb_spec 5 (attempts new)) as [H5|Hlt]; cbn;
      (destruct (decide (key = login_key ip)) as [->|Hne];
       [rewrite lookup_insert_eq; intros [= <-]
       |rewrite lookup_insert_ne by done; apply Hok]).
    + unfold row_shaped. cbn. split; [done|]. split; [done|].
      destruct (Z.leb_spec 5 (attempts new)) as [_|?]; [done|lia].
    + unfold row_shaped. rewrite Hnew2. split; [done|]. split; [done|].
      rewrite (Hnew3 Hlt).
      destruct (Z.leb_spec 5 (attempts new)) as [?|_]; [lia|done].
  - rewrite clearLoginAttempts_eq. cbn.
    intros Hrow. apply lookup_delete_Some in Hrow as [_ Hrow].
    exact (Hok _ _ Hrow).
  - rewrite consume_login. apply Hok.
Qed.

Lemma reachable_rows_shaped st : reachable st → rows_shaped st.
Proof.
  induction 1 as [|c st _ IH Hclock].
  - intros key row. cbn. by rewrite lookup_empty.
  - by apply exec_rows_shaped.
Qed.

Lemma login_key_normal ip : key_normal (login_key ip).
Proof.
  unfold login_key, Js.or_else, key_normal.
  destruct (Js.trim ip) as [|c s] eqn:E; cbn [Js.truthy].
  - split; [done|reflexivity].
  - split; [done|]. rewrite <- E. apply trim_idem.
Qed.

Lemma login_key_of_normal key : key_normal key → login_key key = key.
Proof.
  intros [Hne Htrim]. unfold login_key, Js.or_else. rewrite Htrim.
  by destruct key.
Qed.

Lemma exec_keys_normal c st : keys_normal st → keys_normal (exec c st).
Proof.
  intros Hok key.
  destruct c as [ip now|ip now|ip|identifier now]; cbn [exec].
  - destruct (check_rows ip now st) as [->|(r & lu & _ & _ & _ & _ & ->)];
      [apply Hok|].
    intros [row Hrow]. apply lookup_delete_Some in Hrow as [_ Hrow].
    apply Hok. by eexists.
  - destruct (decide (key = login_key ip)) as [->|Hne];
      [intros _; apply login_key_normal|].
    pose proof (login_calls_keep_other_rows (RecordFailedLogin ip now) st key Hne)
      as Heq.
    cbn [exec] in Heq. rewrite Heq. apply Hok.
  - rewrite clearLoginAttempts_eq. cbn.
    intros [row Hrow]. apply lookup_delete_Some in Hrow as [_ Hrow].
    apply Hok. by eexists.
  - rewrite consume_login. apply Hok.
Qed.

(** In every reachable state a record counts at least one failure, is
    locked exactly when it counts five or more, and its lock ends two minutes
    after its last update. *)
Theorem reachable_rows_have_shape st key row :
  reachable st →
  login_attempts_ip st !! key = Some row →
  1 ≤ attempts row
  ∧ 0 ≤ updated_at row
  ∧ (5 ≤ attempts row ↔ is_Some (locked_until row))
  ∧ ∀ lockedUntil, locked_until row = Some lockedUntil →
      lockedUntil = updated_at row + 2 * 60 * 1000.
Proof.
  intros Hreach Hrow.
  destruct (reachable_rows_shaped st Hreach key row Hrow) as (H1 & H2 & H3).
  split; [done|]. split; [done|]. rewrite H3.
  destruct (Z.leb_spec 5 (attempts row)) as [H5|Hlt].
  - split; [split; [by eexists|done]|]. intros lu [= <-]. lia.
  - split; [|done]. split; [lia|]. by intros [? [=]].
Qed.

Lemma reachable_rows_have_shape_witness :
  let st := exec (RecordFailedLogin "1.2.3.4" 1000) empty_state in
  let row := {| attempts := 1; locked_until := None; updated_at := 1000 |} in
  1 ≤ attempts row
  ∧ 0 ≤ updated_at row
  ∧ (5 ≤ attempts row ↔ is_Some (locked_until row))
  ∧ ∀ lockedUntil, locked_until row = Some lockedUntil →
      lockedUntil = updated_at row + 2 * 60 * 1000.
Proof.
  intros st row.
  apply (reachable_rows_have_shape st "1.2.3.4" row); [|reflexivity].
  apply reachable_exec; [apply reachable_empty|]. cbn. lia.
Defined.

(** In every reachable state the keys of [login_attempts_ip] are trimmed and
    not empty, so each is its own login key: no record is out of the reach
    of the three methods. *)
Theorem reachable_keys_are_normal st key :
  reachable st →
  is_Some (login_attempts_ip st !! key) →
  key ≠ ""%string ∧ Js.trim key = key ∧ login_key key = key.
Proof.
  intros Hreach Hkey.
  assert (Hn : keys_normal st).
  { clear key Hkey. induction Hreach as [|c st _ IH _].
    - intros key [row Hrow]. cbn in Hrow. by rewrite lookup_empty in Hrow.
    - by apply exec_keys_normal. }
  destruct (Hn key Hkey) as [Hne Htrim].
  split; [done|]. split; [done|]. by apply login_key_of_normal.
Qed.

Lemma reachable_keys_are_normal_witness :
  let st := exec (RecordFailedLogin "  1.2.3.4 " 1000) empty_state in
  ("1.2.3.4" ≠ "" ∧ Js.trim "1.2.3.4" = "1.2.3.4"
   ∧ login_key "1.2.3.4" = "1.2.3.4")%string.
Proof.
  intros st. apply (reachable_keys_are_normal st "1.2.3.4").
  - apply reachable_exec; [apply reachable_empty|]. cbn. lia.
  - by eexists.
Defined.





(** ** Failures in sequence *)

Lemma run_all_app {A} (ms1 ms2 : list (M A)) st :
  run_all (ms1 ++ ms2) st =
    ((run_all ms1 st).1 ++ (run_all ms2 (run_all ms1 st).2).1,
     (run_all ms2 (run_all ms1 st).2).2).
Proof.
  revert st. induction ms1 as [|m ms1 IH]; intros st.
  - cbn. by destruct (run_all ms2 st).
  - rewrite <- app_comm_cons, !run_all_cons, IH. reflexivity.
Qed.

Lemma record_run_locked ip nows : ∀ st,
  4 ≤ attempts_at st (login_key ip) →
  let '(rs, st') := run_all (recordFailedLogin ip <$> nows) st in
  rs = replicate (length nows) now_locked
  ∧ attempts_at st' (login_key ip)
      = attempts_at st (login_key ip) + Z.of_nat (length nows)
  ∧ ∀ t, last nows = Some t →
      login_attempts_ip st' !! login_key ip =
        Some {| attempts := attempts_at st (login_key ip) + Z.of_nat (length nows);
                locked_until := Some (t + 120000);
                updated_at := t |}.
Proof.
  induction nows as [|now nows IH]; intros st Hge.
  - cbn. split; [done|]. split; [lia|done].
  - rewrite fmap_cons, run_all_cons.
    pose proof (record_reaching ip now st) as H1. cbv zeta in H1.
    destruct (recordFailedLogin ip now st) as [r st1]. cbn [fst snd].
    destruct H1 as [-> Hrow1]; [lia|].
    assert (Hat1 : attempts_at st1 (login_key ip)
                   = attempts_at st (login_key ip) + 1)
      by (unfold attempts_at at 1; by rewrite Hrow1).
    specialize (IH st1). rewrite Hat1 in IH.
    destruct nows as [|now2 nows].
    + cbn. split; [done|]. split; [lia|].
      intros t [= <-]. rewrite Hrow1. reflexivity.
    + destruct (run_all _ st1) as [rs st']. cbn [fst snd].
      destruct IH as (-> & Hat' & Hlast); [lia|].
      split; [done|]. split; [cbn [length] in *; lia|].
      intros t Ht. rewrite last_cons_cons in Ht. rewrite (Hlast t Ht).
      do 2 f_equal. cbn [length]. lia.
Qed.

(** Any number of failures recorded in sequence against an identifier that
    has no record: the first four answer [locked: false], every later one
    answers [locked: true]; the record counts them all, stays unlocked below
    five, and from the fifth on is locked until two minutes after the last
    failure. *)
Theorem failures_in_sequence st ip nows :
  login_attempts_ip st !! login_key ip = None →
  let '(rs, st') := run_all (recordFailedLogin ip <$> nows) st in
  rs = replicate (length nows `min` 4) not_locked
         ++ replicate (length nows - 4) now_locked
  ∧ attempts_at st' (login_key ip) = Z.of_nat (length nows)
  ∧ ((length nows < 5)%nat → no_lock st' (login_key ip))
  ∧ ∀ t, (5 ≤ length nows)%nat → last nows = Some t →
      login_attempts_ip st' !! login_key ip =
        Some {| attempts := Z.of_nat (length nows);
                locked_until := Some (t + 2 * 60 * 1000);
                updated_at := t |}.
Proof.
  intros Hnone.
  assert (Hno : no_lock st (login_key ip)) by (intros row; by rewrite Hnone).
  assert (Hat : attempts_at st (login_key ip) = 0)
    by (unfold attempts_at; by rewrite Hnone).
  assert (Hsplit : recordFailedLogin ip <$> nows
                   = (recordFailedLogin ip <$> take 4 nows)
                       ++ (recordFailedLogin ip <$> drop 4 nows))
    by (by rewrite <- fmap_app, take_drop).
  rewrite Hsplit, run_all_app. clear Hsplit.
  pose proof (record_run ip (take 4 nows) st) as H4. cbv zeta in H4.
  rewrite Hat, length_take in H4.
  destruct (run_all (recordFailedLogin ip <$> take 4 nows) st) as [rs4 st4].
  destruct H4 as (-> & Hno4 & Hat4); [done|lia|]. cbn [fst snd].
  destruct (decide (length nows < 5)%nat) as [Hlt|Hge].
  - rewrite drop_ge by lia. cbn [fmap list_fmap run_all mret M_ret fst snd].
    replace (length nows - 4)%nat with 0%nat by lia. cbn [replicate].
    rewrite Nat.min_comm. split; [done|]. split; [lia|]. split; [done|]. lia.
  - pose proof (record_run_locked ip (drop 4 nows) st4) as H5. cbv zeta in H5.
    rewrite Hat4, length_drop in H5.
    destruct (run_all (recordFailedLogin ip <$> drop 4 nows) st4) as [rs5 st'].
    destruct H5 as (-> & Hat' & Hlast); [lia|]. cbn [fst snd].
    rewrite Nat.min_comm. split; [done|]. split; [lia|]. split; [lia|].
    intros t _ Ht. rewrite (Hlast t).
    + do 2 f_equal. lia.
    + rewrite <- (take_drop 4 nows), last_app in Ht.
      destruct (last (drop 4 nows)) as [t'|] eqn:E; [done|].
      apply last_None in E. apply (f_equal length) in E.
      rewrite length_drop in E. cbn in E. lia.
Qed.

Lemma failures_in_sequence_witness :
  let '(rs, st') :=
    run_all (recordFailedLogin "1.2.3.4"
               <$> [1000; 2000; 3000; 4000; 5000; 6000]) empty_state in
  rs = replicate 4 not_locked ++ replicate 2 now_locked
  ∧ attempts_at st' (login_key "1.2.3.4") = 6.
Proof.
  pose proof (failures_in_sequence empty_state "1.2.3.4"
                [1000; 2000; 3000; 4000; 5000; 6000] eq_refl) as H.
  destruct (run_all _ empty_state) as [rs st'].
  exact (conj (proj1 H) (proj1 (proj2 H))).
Defined.

(** [clearLoginAttempts] is idempotent, and the failure recorded after it is
    a first failure: it answers [locked: false] and the new record counts 1,
    whatever was held against the identifier before. *)
Theorem clear_resets_the_count st ip now :
  clearLoginAttempts ip (clearLoginAttempts ip st).2 = clearLoginAttempts ip st
  ∧ (recordFailedLogin ip now (clearLoginAttempts ip st).2).1
      = {| RecordResult.locked := false;
           RecordResult.retryAfterSeconds := None |}
  ∧ login_attempts_ip (recordFailedLogin ip now (clearLoginAttempts ip st).2).2
        !! login_key ip
      = Some {| attempts := 1; locked_until := None; updated_at := now |}.
Proof.
  rewrite !clearLoginAttempts_eq. cbn [snd with_login login_attempts_ip].
  split.
  - rewrite delete_delete_eq. reflexivity.
  - rewrite recordFailedLogin_eq. cbv zeta.
    cbn [with_login login_attempts_ip]. rewrite lookup_delete_eq.
    cbn. by rewrite lookup_insert_eq.
Qed.

(** ** The forwarded-for entry *)

Lemma first_split_spec sep s :
  ∃ rest,
    s = (Js.first (Js.split sep s) ++ rest)%string
    ∧ (rest = ""%string ∨ ∃ rest', rest = String sep rest')
    ∧ occurs sep (Js.first (Js.split sep s)) = false.
Proof.
  induction s as [|c s IH]; cbn.
  - exists ""%string. split; [done|]. split; [by left|done].
  - destruct (Ascii.eqb_spec c sep) as [->|Hne]; cbn.
    + exists (String sep s). split; [done|]. split; [right; by eexists|done].
    + destruct IH as (rest & Hs & Hrest & Hocc).
      pose proof (split_first_nonempty sep s) as Hnil.
      destruct (Js.split sep s) as [|piece pieces]; [done|].
      cbn [Js.first] in *.
      exists rest.
      split; [change (String c s = String c (piece +:+ rest)); by rewrite <- Hs|].
      split; [done|]. cbn.
      rewrite Hocc. by destruct (Ascii.eqb_spec c sep).
Qed.

Lemma occurs_trimStart c s : occurs c s = false → occurs c (Js.trimStart s) = false.
Proof.
  induction s as [|c' s IH]; cbn; [done|].
  intros [H1 H2]%orb_false_elim. destruct (Js.is_space c'); [by apply IH|].
  cbn. by rewrite H1, H2.
Qed.

Lemma occurs_trimEnd c s : occurs c s = false → occurs c (Js.trimEnd s) = false.
Proof.
  induction s as [|c' s IH]; cbn; [done|].
  intros [H1 H2]%orb_false_elim. specialize (IH H2).
  destruct (Js.trimEnd s) as [|c'' t].
  - destruct (Js.is_space c'); cbn; [done|]. by rewrite H1.
  - cbn. cbn in IH. by rewrite H1, IH.
Qed.

(** When the identifier comes from the forwarded-for header, it is the part
    of the header before its first comma, trimmed: it holds no comma and
    neither starts nor ends with white space. *)
Theorem forwarded_for_entry_is_clean request forwardedFor :
  headers_get request "CF-Connecting-IP" = None
    ∨ headers_get request "CF-Connecting-IP" = Some ""%string →
  headers_get request "X-Forwarded-For" = Some forwardedFor →
  forwardedFor ≠ ""%string →
  ∃ piece rest,
    forwardedFor = (piece ++ rest)%string
    ∧ (rest = ""%string ∨ ∃ rest', rest = String "," rest')
    ∧ occurs "," piece = false
    ∧ getClientIdentifier request = Js.trim piece
    ∧ occurs "," (getClientIdentifier request) = false
    ∧ Js.trim (getClientIdentifier request) = getClientIdentifier request.
Proof.
  intros Hcf Hxff Hne.
  destruct (first_split_spec "," forwardedFor) as (rest & Hs & Hrest & Hocc).
  exists (Js.first (Js.split "," forwardedFor)), rest.
  assert (Hid : getClientIdentifier request
                = Js.trim (Js.first (Js.split "," forwardedFor))).
  { unfold getClientIdentifier. rewrite Hxff.
    destruct Hcf as [-> | ->]; by destruct forwardedFor. }
  rewrite Hid. repeat split; try done.
  - unfold Js.trim. by apply occurs_trimEnd, occurs_trimStart.
  - apply trim_idem.
Qed.

Lemma forwarded_for_entry_is_clean_witness :
  let request :=
    {| headers := {[ "x-forwarded-for"%string := " 10.0.0.1 ,10.0.0.2"%string ]} |} in
  ∃ piece rest,
    " 10.0.0.1 ,10.0.0.2"%string = (piece ++ rest)%string
    ∧ (rest = ""%string ∨ ∃ rest', rest = String "," rest')
    ∧ occurs "," piece = false
    ∧ getClientIdentifier request = Js.trim piece
    ∧ occurs "," (getClientIdentifier request) = false
    ∧ Js.trim (getClientIdentifier request) = getClientIdentifier request.
Proof.
  intros request.
  apply (forwarded_for_entry_is_clean request " 10.0.0.1 ,10.0.0.2").
  - left. reflexivity.
  - reflexivity.
  - discriminate.
Defined.

(** ** Concurrent failures *)

Section counting.
Context {A : Type} (p : A → bool).

Lemma count_if_insert (l : list A) : ∀ i t t',
  l !! i = Some t →
  count_if p (<[i := t']> l) = count_if p l - Z.b2z (p t) + Z.b2z (p t').
Proof.
  unfold count_if.
  induction l as [|t0 l IH]; intros i t t' Hi; [done|].
  destruct i as [|i]; cbn in Hi.
  - injection Hi as ->. clear IH. cbn.
    destruct (p t), (p t'); cbn [length Z.b2z]; lia.
  - specialize (IH i t t' Hi).
    change (<[S i := t']> (t0 :: l)) with (t0 :: <[i := t']> l).
    cbn [List.filter]. destruct (p t0); cbn [length]; lia.
Qed.

Lemma count_if_bounds (l : list A) : 0 ≤ count_if p l ≤ Z.of_nat (length l).
Proof.
  unfold count_if. induction l as [|t l IH]; cbn; [lia|].
  destruct (p t); cbn [length]; lia.
Qed.

Lemma count_if_all (l : list A) :
  Forall (λ t, p t = true) l → count_if p l = Z.of_nat (length l).
Proof.
  unfold count_if. induction 1 as [|t l Ht _ IH]; [done|].
  cbn. rewrite Ht. cbn [length]. lia.
Qed.

Lemma count_if_none (l : list A) :
  Forall (λ t, p t = false) l → count_if p l = 0.
Proof.
  unfold count_if. induction 1 as [|t l Ht _ IH]; [done|].
  cbn. by rewrite Ht.
Qed.

Lemma count_if_member (l : list A) i t :
  l !! i = Some t →
  (p t = true → 0 < count_if p l) ∧ (count_if p l = 0 → p t = false).
Proof.
  intros Hi. pose proof (count_if_bounds l) as Hb.
  assert (Hpos : p t = true → 0 < count_if p l).
  { revert i Hi Hb. unfold count_if.
    induction l as [|t0 l IH]; intros i Hi _ Ht; [done|].
    destruct i as [|i]; cbn in Hi.
    - injection Hi as ->. cbn. rewrite Ht. cbn [length]. lia.
    - cbn. pose proof (IH i Hi (count_if_bounds l) Ht).
      destruct (p t0); cbn [length]; lia. }
  split; [done|]. intros Hz. destruct (p t); [|done]. specialize (Hpos eq_refl). lia.
Qed.

End counting.

Lemma upsert_attempt_effect key now st :
  attempts_at (Sql.upsert_attempt key now st).2 key = attempts_at st key + 1
  ∧ is_locked (Sql.upsert_attempt key now st).2 key = is_locked st key.
Proof.
  unfold Sql.upsert_attempt, attempts_at, is_locked.
  cbn [snd with_login login_attempts_ip]. rewrite lookup_insert_eq.
  by destruct (login_attempts_ip st !! key).
Qed.

Lemma update_lock_effect lockedUntil now key st :
  1 ≤ attempts_at st key →
  attempts_at (Sql.update_lock lockedUntil now key st).2 key = attempts_at st key
  ∧ is_locked (Sql.update_lock lockedUntil now key st).2 key = true.
Proof.
  unfold Sql.update_lock, attempts_at, is_locked.
  destruct (login_attempts_ip st !! key) as [old|] eqn:E; [|lia].
  intros _. cbn [snd with_login login_attempts_ip]. by rewrite lookup_insert_eq.
Qed.

Lemma select_login_counted key st :
  1 ≤ attempts_at st key →
  ∃ row, login_attempts_ip st !! key = Some row
         ∧ attempts row = attempts_at st key.
Proof.
  unfold attempts_at.
  destruct (login_attempts_ip st !! key) as [row|]; [|lia]. by exists row.
Qed.

Local Ltac settle Hsound :=
  repeat split; try lia;
  try (let Hl := fresh in intros Hl; specialize (Hsound Hl); lia).

Lemma record_invariant_step ip c n cfg cfg' :
  0 ≤ c →
  record_invariant ip c n cfg →
  record_step ip cfg cfg' →
  record_invariant ip c n cfg'.
Proof.
  intros Hc Hinv Hstep.
  destruct Hstep as [st threads i t m t' st' Hi Hnext Hrun].
  destruct Hinv as (Hlen & Hat & Hamiss & Hsound & Hbound & Hlive).
  cbn [fst snd] in *.
  pose proof (count_if_bounds past_upsert threads) as Bpast.
  pose proof (count_if_bounds answered_locked threads) as Bans.
  pose proof (count_if_bounds about_to_select threads) as Bsel.
  pose proof (count_if_bounds about_to_lock threads) as Block.
  pose proof (count_if_member past_upsert threads i t Hi) as [Mpast _].
  pose proof (count_if_member (read_amiss (c + Z.of_nat n)) threads i t Hi)
    as [_ Mamiss].
  specialize (Mamiss Hamiss).
  unfold record_invariant. cbn [fst snd].
  rewrite !(count_if_insert _ threads i t t' Hi), length_insert.
  destruct t as [now|now|now|now row|r]; cbn in Hnext; [..|discriminate];
    injection Hnext as <-.
  - (* the schema statement *)
    rewrite bind_eq, ensureLoginIpTable_eq in Hrun. injection Hrun as <- <-.
    change (attempts_at (ready st) (login_key ip))
      with (attempts_at st (login_key ip)).
    change (is_locked (ready st) (login_key ip))
      with (is_locked st (login_key ip)).
    cbn [past_upsert answered_locked about_to_select about_to_lock read_amiss
         Z.b2z].
    rewrite !Z.sub_0_r, !Z.add_0_r. done.
  - (* the upsert *)
    assert (Hst' : t' = Upserted now
                   ∧ st' = (Sql.upsert_attempt (login_key ip) now st).2)
      by (rewrite bind_eq in Hrun; by injection Hrun as <- <-).
    destruct Hst' as [-> ->]. clear Hrun.
    destruct (upsert_attempt_effect (login_key ip) now st) as [-> ->].
    cbn [past_upsert answered_locked about_to_select about_to_lock read_amiss
         Z.b2z].
    settle Hsound.
  - (* the select *)
    rewrite bind_eq in Hrun. unfold Sql.select_login in Hrun. cbn in Hrun.
    injection Hrun as <- <-. specialize (Mpast eq_refl).
    destruct (select_login_counted (login_key ip) st ltac:(lia))
      as (row & -> & Hrow).
    cbn [past_upsert answered_locked about_to_select about_to_lock read_amiss
         Z.b2z].
    destruct (Z.leb_spec 1 (attempts row)) as [_|?]; [|lia].
    destruct (Z.leb_spec (attempts row) (c + Z.of_nat n)) as [_|?]; [|lia].
    cbn [andb negb Z.b2z].
    destruct (Z.leb_spec 5 (attempts row)) as [H5|Hlt]; cbn [Z.b2z];
      settle Hsound.
  - (* the threshold test, and the update when it holds *)
    specialize (Mpast eq_refl).
    destruct row as [row|]; [|discriminate Mamiss].
    cbn [read_amiss] in Mamiss. apply negb_false_iff, andb_prop in Mamiss.
    destruct Mamiss as [Hlo%Z.leb_le Hhi%Z.leb_le].
    rewrite num_or_threshold in Hrun.
    change CONFIG.LOGIN_MAX_ATTEMPTS with 5 in Hrun.
    cbn [past_upsert answered_locked about_to_select about_to_lock read_amiss
         Z.b2z].
    destruct (Z.leb_spec 1 (attempts row)) as [_|?]; [|lia].
    destruct (Z.leb_spec (attempts row) (c + Z.of_nat n)) as [_|?]; [|lia].
    cbn [andb negb Z.b2z].
    destruct (Z.leb_spec 5 (attempts row)) as [H5|Hlt].
    + assert (Hst' : t' = Returned now_locked
                     ∧ st' = (Sql.update_lock
                                (now + CONFIG.LOGIN_LOCKOUT_MINUTES * 60 * 1000)
                                now (login_key ip) st).2)
        by (rewrite bind_eq in Hrun; by injection Hrun as <- <-).
      destruct Hst' as [-> ->]. clear Hrun.
      destruct (update_lock_effect
                  (now + CONFIG.LOGIN_LOCKOUT_MINUTES * 60 * 1000) now
                  (login_key ip) st ltac:(lia)) as [-> ->].
      cbn [past_upsert answered_locked about_to_select about_to_lock read_amiss
           now_locked RecordResult.locked Z.b2z].
      settle Hsound.
    + injection Hrun as <- <-.
      cbn [past_upsert answered_locked about_to_select about_to_lock read_amiss
           RecordResult.locked Z.b2z].
      settle Hsound. intros H5 _.
      destruct (Hlive H5 Mpast) as [?|[?|?]];
        [by left|right; left; lia|right; right; lia].
Qed.

Lemma record_invariant_start ip c st nows :
  0 ≤ c →
  attempts_at st (login_key ip) = c →
  no_lock st (login_key ip) →
  record_invariant ip c (length nows) (st, Called <$> nows).
Proof.
  intros Hc Hat Hno. unfold record_invariant. cbn [fst snd].
  assert (Hzero : ∀ p : record_thread → bool,
            (∀ now, p (Called now) = false) → count_if p (Called <$> nows) = 0).
  { intros p Hp. apply count_if_none, Forall_fmap, Forall_forall.
    intros now _. apply Hp. }
  rewrite !Hzero by done. rewrite length_fmap.
  assert (Hunlocked : is_locked st (login_key ip) = false).
  { unfold is_locked. destruct (login_attempts_ip st !! login_key ip) as [row|] eqn:E;
      [|done]. by rewrite (Hno row E). }
  rewrite Hunlocked. repeat split; try lia; done.
Qed.

Lemma record_invariant_steps ip c n cfg cfg' :
  0 ≤ c →
  record_invariant ip c n cfg →
  rtc (record_step ip) cfg cfg' →
  record_invariant ip c n cfg'.
Proof.
  intros Hc Hinv Hrun. induction Hrun as [cfg|cfg cfg1 cfg' Hstep _ IH]; [done|].
  apply IH. by eapply record_invariant_step.
Qed.

Lemma record_step_head ip t m t' st st' threads :
  record_next ip t = Some m →
  m st = (t', st') →
  record_step ip (st, t :: threads) (st', t' :: threads).
Proof.
  intros Hnext Hrun.
  by apply (record_step_statement ip st (t :: threads) 0%nat t m t' st').
Qed.

Lemma record_step_cons ip t st threads st' threads' :
  record_step ip (st, threads) (st', threads') →
  record_step ip (st, t :: threads) (st', t :: threads').
Proof.
  inversion 1 as [? ? i t0 m t' ? Hi Hnext Hrun]; subst.
  by apply (record_step_statement ip st (t :: threads) (S i) t0 m t' st').
Qed.

Lemma record_steps_cons ip t cfg cfg' :
  rtc (record_step ip) cfg cfg' →
  rtc (record_step ip) (cfg.1, t :: cfg.2) (cfg'.1, t :: cfg'.2).
Proof.
  induction 1 as [cfg|cfg cfg1 cfg' Hstep _ IH]; [done|].
  eapply rtc_l; [|exact IH].
  destruct cfg, cfg1. by apply record_step_cons.
Qed.

(** A call that runs its statements with no other in between is the method
    [recordFailedLogin]. *)
Lemma record_thread_alone ip now st threads :
  rtc (record_step ip) (st, Called now :: threads)
    ((recordFailedLogin ip now st).2,
     Returned (recordFailedLogin ip now st).1 :: threads).
Proof.
  eapply rtc_l.
  { eapply record_step_head; [reflexivity|].
    rewrite bind_eq, ensureLoginIpTable_eq. reflexivity. }
  eapply rtc_l.
  { eapply record_step_head; [reflexivity|]. rewrite bind_eq. reflexivity. }
  eapply rtc_l.
  { eapply record_step_head; [reflexivity|]. rewrite bind_eq. reflexivity. }
  apply rtc_once. eapply record_step_head; [reflexivity|].
  rewrite recordFailedLogin_eq. cbv zeta.
  cbn [fst snd Sql.upsert_attempt Sql.select_login ready with_login
       login_attempts_ip].
  rewrite lookup_insert_eq, num_or_threshold.
  change CONFIG.LOGIN_MAX_ATTEMPTS with 5.
  set (row := match login_attempts_ip st !! login_key ip with
              | Some old => _ | None => _ end).
  destruct (5 <=? attempts row); [|reflexivity].
  rewrite bind_eq. unfold Sql.update_lock.
  cbn [fst snd with_login login_attempts_ip]. rewrite lookup_insert_eq.
  cbn [fst snd with_login login_attempts_ip]. rewrite insert_insert_eq.
  reflexivity.
Qed.

Lemma concurrent_failures_run_exists ip nows : ∀ st,
  ∃ cfg, rtc (record_step ip) (st, Called <$> nows) cfg ∧ all_returned cfg.2.
Proof.
  induction nows as [|now nows IH]; intros st.
  - exists (st, []). split; [done|]. constructor.
  - destruct (IH (recordFailedLogin ip now st).2) as [[st' threads'] [Hrun Hdone]].
    exists (st', Returned (recordFailedLogin ip now st).1 :: threads'). split.
    + etrans; [apply record_thread_alone|].
      apply (record_steps_cons ip _ _ _ Hrun).
    + by constructor.
Qed.

(** Concurrent failures against one identifier that is not locked and has
    [c] failures counted.  The calls can all complete, and however the store
    orders their statements, every failure is counted once; below the
    threshold no call answers [locked: true] and no lock is set; and when
    the count reaches five the record ends up locked and at least one call
    has answered [locked: true]. *)
Theorem concurrent_failures_all_counted ip nows st c :
  0 ≤ c →
  attempts_at st (login_key ip) = c →
  no_lock st (login_key ip) →
  let n := Z.of_nat (length nows) in
  (∃ cfg, rtc (record_step ip) (st, Called <$> nows) cfg ∧ all_returned cfg.2)
  ∧ ∀ st' threads',
      rtc (record_step ip) (st, Called <$> nows) (st', threads') →
      all_returned threads' →
      attempts_at st' (login_key ip) = c + n
      ∧ (c + n < 5 →
         is_locked st' (login_key ip) = false
         ∧ count_if answered_locked threads' = 0)
      ∧ (5 ≤ c + n → 0 < n →
         is_locked st' (login_key ip) = true
         ∧ 0 < count_if answered_locked threads').
Proof.
  intros Hc Hat Hno n. split; [apply concurrent_failures_run_exists|].
  intros st' threads' Hrun Hdone.
  pose proof (record_invariant_start ip c st nows Hc Hat Hno) as Hinv.
  pose proof (record_invariant_steps _ _ _ _ _ Hc Hinv Hrun)
    as (Hlen & Hat' & _ & Hsound & Hbound & Hlive).
  cbn [fst snd] in *. fold n in Hbound.
  assert (Hpast : count_if past_upsert threads' = n).
  { rewrite count_if_all, Hlen; [done|].
    eapply Forall_impl; [exact Hdone|]. by intros [] . }
  assert (Hsel : count_if about_to_select threads' = 0).
  { apply count_if_none. eapply Forall_impl; [exact Hdone|]. by intros []. }
  assert (Hlock : count_if about_to_lock threads' = 0).
  { apply count_if_none. eapply Forall_impl; [exact Hdone|]. by intros []. }
  pose proof (count_if_bounds answered_locked threads') as Bans.
  rewrite Hpast in Hat', Hlive. split; [done|]. split.
  - intros Hlt. destruct (is_locked st' (login_key ip)).
    + specialize (Hsound eq_refl). lia.
    + split; [done|]. lia.
  - intros H5 Hn. destruct Hlive as [Hl|[?|?]]; [lia..| |lia|lia].
    split; [done|]. by apply Hsound.
Qed.

Lemma concurrent_failures_all_counted_witness :
  let st := (run_all (recordFailedLogin "1.2.3.4" <$> replicate 3 1000)
               empty_state).2 in
  let nows := [2000; 2500] in
  (∃ cfg, rtc (record_step "1.2.3.4") (st, Called <$> nows) cfg
          ∧ all_returned cfg.2)
  ∧ ∀ st' threads',
      rtc (record_step "1.2.3.4") (st, Called <$> nows) (st', threads') →
      all_returned threads' →
      attempts_at st' (login_key "1.2.3.4") = 3 + 2
      ∧ (3 + 2 < 5 →
         is_locked st' (login_key "1.2.3.4") = false
         ∧ count_if answered_locked threads' = 0)
      ∧ (5 ≤ 3 + 2 → 0 < 2 →
         is_locked st' (login_key "1.2.3.4") = true
         ∧ 0 < count_if answered_locked threads').
Proof.
  intros st nows.
  apply (concurrent_failures_all_counted "1.2.3.4" nows st 3).
  - lia.
  - reflexivity.
  - intros row Hrow. vm_compute in Hrow. injection Hrow as <-. reflexivity.
Defined.

(** ** The length of a lock *)

(** The lock a failure sets at [now0] lasts exactly 120000 milliseconds:
    every check before [now0 + 120000] is denied, and the check at that
    instant or later is allowed with the full budget and drops the record. *)
Theorem lock_lasts_two_minutes st ip now0 now1 :
  0 ≤ now0 →
  RecordResult.locked (recordFailedLogin ip now0 st).1 = true →
  let '(r, st') := checkLoginAttempt ip now1 (recordFailedLogin ip now0 st).2 in
  (now1 < now0 + 120000 →
   r = {| CheckResult.allowed := false;
          CheckResult.remainingAttempts := 0;
          CheckResult.retryAfterSeconds :=
            Some (Js.ceil_div (now0 + 120000 - now1) 1000) |}
   ∧ is_locked st' (login_key ip) = true)
  ∧ (now0 + 120000 ≤ now1 →
     r = {| CheckResult.allowed := true;
            CheckResult.remainingAttempts := 5;
            CheckResult.retryAfterSeconds := None |}
     ∧ login_attempts_ip st' !! login_key ip = None).
Proof.
  intros Hnow0. rewrite recordFailedLogin_eq. cbv zeta.
  destruct (5 <=? _); cbn [fst snd RecordResult.locked]; [intros _|done].
  set (st1 := with_login _ (ready st)).
  assert (Hrow : ∃ row, login_attempts_ip st1 !! login_key ip = Some row
                        ∧ locked_until row = Some (now0 + 120000)).
  { eexists. split; [apply lookup_insert_eq|done]. }
  destruct Hrow as (row & Hrow & Hlu).
  destruct (Z.lt_ge_cases now1 (now0 + 120000)) as [Hlt|Hge].
  - rewrite (check_locked ip now1 st1 row (now0 + 120000)) by (done || lia).
    split; [|lia]. intros _. split; [done|].
    unfold is_locked. cbn [ready login_attempts_ip]. by rewrite Hrow, Hlu.
  - rewrite (check_expired ip now1 st1 row (now0 + 120000)) by (done || lia).
    split; [lia|]. intros _. split; [done|]. apply lookup_delete_eq.
Qed.

Lemma lock_lasts_two_minutes_witness :
  let st := (run_all (recordFailedLogin "1.2.3.4" <$> replicate 4 1000)
               empty_state).2 in
  (checkLoginAttempt "1.2.3.4" 120999 (recordFailedLogin "1.2.3.4" 1000 st).2).1
    = {| CheckResult.allowed := false;
         CheckResult.remainingAttempts := 0;
         CheckResult.retryAfterSeconds :=
           Some (Js.ceil_div (1000 + 120000 - 120999) 1000) |}.
Proof.
  intros st.
  pose proof (lock_lasts_two_minutes st "1.2.3.4" 1000 120999
                ltac:(lia) eq_refl) as H.
  destruct (checkLoginAttempt "1.2.3.4" 120999 _) as [r st'].
  exact (proj1 (proj1 H ltac:(lia))).
Defined.

(** ** Across a window boundary *)

Lemma consume_run_other identifier nows k : ∀ st,
  Forall (λ now, budget_key identifier now ≠ k) nows →
  api_rate_limits (run_all (consumeApiWriteBudget identifier <$> nows) st).2 !! k
    = api_rate_limits st !! k.
Proof.
  induction nows as [|now nows IH]; intros st Hne; [done|].
  apply Forall_cons in Hne as [Hnow Hne].
  rewrite fmap_cons, run_all_cons. cbn [snd].
  rewrite IH by done. apply consume_other. unfold budget_key in Hnow. congruence.
Qed.

(** The windows are fixed, not sliding: a caller who has used up the 120
    writes of one window is accepted again for 120 more in another window
    that has no row yet, so up to 240 writes in a row go through across a
    boundary. *)
Theorem full_budget_on_both_sides_of_a_boundary
    st identifier ws ws' nows nows' :
  ws ≠ ws' →
  api_rate_limits st !! (identifier, ws) = None →
  api_rate_limits st !! (identifier, ws') = None →
  length nows = 120%nat →
  length nows' = 120%nat →
  Forall (in_window ws) nows →
  Forall (in_window ws') nows' →
  (run_all (consumeApiWriteBudget identifier <$> nows ++ nows') st).1
    = ((λ j, accepted (120 - j)) <$> seqZ 1 120)
        ++ ((λ j, accepted (120 - j)) <$> seqZ 1 120).
Proof.
  intros Hne Hrow Hrow' Hlen Hlen' Hw Hw'.
  rewrite fmap_app, run_all_app. cbn [fst].
  pose proof (consume_run identifier ws nows st Hw) as H1. cbv zeta in H1.
  assert (Hzero : count_at st identifier ws = 0)
    by (unfold count_at; by rewrite Hrow).
  rewrite Hzero, Hlen in H1.
  assert (Hother : api_rate_limits
                     (run_all (consumeApiWriteBudget identifier <$> nows) st).2
                     !! (identifier, ws') = None).
  { rewrite consume_run_other; [done|].
    eapply Forall_impl; [exact Hw|]. intros now Hin. unfold budget_key.
    unfold in_window in Hin. congruence. }
  destruct (run_all (consumeApiWriteBudget identifier <$> nows) st) as [rs st1].
  destruct H1 as [-> _]; [lia..|]. cbn [fst snd] in *.
  pose proof (consume_run identifier ws' nows' st1 Hw') as H2. cbv zeta in H2.
  assert (Hzero' : count_at st1 identifier ws' = 0)
    by (unfold count_at; by rewrite Hother).
  rewrite Hzero', Hlen' in H2.
  destruct (run_all (consumeApiWriteBudget identifier <$> nows') st1) as [rs' st2].
  destruct H2 as [-> _]; [lia..|]. done.
Qed.

Lemma full_budget_on_both_sides_of_a_boundary_witness :
  (run_all (consumeApiWriteBudget "203.0.113.7"
              <$> replicate 120 119999 ++ replicate 120 120000) empty_state).1
    = ((λ j, accepted (120 - j)) <$> seqZ 1 120)
        ++ ((λ j, accepted (120 - j)) <$> seqZ 1 120).
Proof.
  apply (full_budget_on_both_sides_of_a_boundary
           empty_state "203.0.113.7" 60 120
           (replicate 120 119999) (replicate 120 120000)).
  - lia.
  - reflexivity.
  - reflexivity.
  - reflexivity.
  - reflexivity.
  - apply Forall_replicate. reflexivity.
  - apply Forall_replicate. reflexivity.
Defined.
